(** * Workflow execution engine (src/services/workflowExecution.ts)

    A shallow embedding of the workflow engine: the graph orderer
    [topologicalSort], the node handlers dispatched by [executeNode], the
    per-context fan-out and the run coordinator [executeWorkflow], followed
    by the properties established about them. *)

From Stdlib Require Import ZArith List String Ascii Lia Permutation.
From stdpp Require Import base option list sets gmap strings relations pretty.

Set Warnings "-clear-no-such-hyp".

(** ** JavaScript values

    Payloads, node configurations and collaborator responses are untyped
    ([any]) in the source.  Numbers are restricted to the integers a double
    holds (JSON payloads of this engine carry counts, scores and timestamps);
    strings are sequences of code units below 256, the Basic Latin and
    Latin-1 Supplement blocks; an object is its list of own properties in
    insertion order. *)

#[warnings="-register-all"] Inductive JsVal : Type :=
| JUndefined
| JNull
| JBool (b : bool)
| JNum (n : Z)
| JStr (s : string)
| JArr (items : list JsVal)
| JObj (fields : list (string * JsVal)).

(** ** Data model *)

(** Modelled from the spec: the [WorkflowNode] type of [@/types/WorkflowTypes],
    which is imported by the engine but is not among the sources.  The fields
    are the ones the engine reads: [node.id], [node.type], [node.label],
    [node.config] and [node.connected]. *)
Record WorkflowNode : Type := mkNode {
  id : string;
  type : string;
  label : string;
  config : JsVal;
  connected : list string
}.

(** ** Graph orderer: [topologicalSort] *)

(** The three mutable locals of [topologicalSort]: the array [sorted] and the
    sets [visited] and [visiting]. *)
Record SortState : Type := mkSortState {
  sorted : list WorkflowNode;
  visited : gset string;
  visiting : gset string
}.

(** Outcome of (a part of) the sort: normal return, the thrown
    [Error('Circular dependency detected in workflow')], or the recursion
    bound of the embedding being hit. *)
Inductive SortResult (A : Type) : Type :=
| Sorted (a : A)
| CircularDependency
| FuelExhausted.
Arguments Sorted {A} a.
Arguments CircularDependency {A}.
Arguments FuelExhausted {A}.

(** [for (const x of l) body(x)] over the sort state; a throw leaves the loop. *)
Fixpoint forEach {A : Type} (body : A -> SortState -> SortResult SortState)
    (l : list A) (st : SortState) : SortResult SortState :=
  match l with
  | [] => Sorted st
  | x :: rest =>
      match body x st with
      | Sorted st' => forEach body rest st'
      | CircularDependency => CircularDependency
      | FuelExhausted => FuelExhausted
      end
  end.

(** [nodes.find(n => n.id === nodeId)] *)
Definition lookupNode (nodes : list WorkflowNode) (nodeId : string) : option WorkflowNode :=
  find (fun n => String.eqb (id n) nodeId) nodes.

(** The inner function [visit(nodeId)]; [fuel] bounds the recursion depth. *)
Fixpoint visit (fuel : nat) (nodes : list WorkflowNode) (nodeId : string)
    (st : SortState) : SortResult SortState :=
  match fuel with
  | O => FuelExhausted
  | S fuel' =>
      if decide (nodeId ∈ visiting st) then CircularDependency
      else if decide (nodeId ∈ visited st) then Sorted st
      else
        let st1 := mkSortState (sorted st) (visited st) ({[nodeId]} ∪ visiting st) in
        match lookupNode nodes nodeId with
        | Some node =>
            match forEach (visit fuel' nodes) (connected node) st1 with
            | Sorted st2 =>
                Sorted (mkSortState (sorted st2 ++ [node])
                                    ({[nodeId]} ∪ visited st2)
                                    (visiting st2 ∖ {[nodeId]}))
            | CircularDependency => CircularDependency
            | FuelExhausted => FuelExhausted
            end
        | None =>
            Sorted (mkSortState (sorted st1) (visited st1) (visiting st1 ∖ {[nodeId]}))
        end
  end.

Definition isTrigger (n : WorkflowNode) : bool := String.eqb (type n) "trigger".

Definition emptySort : SortState := mkSortState [] ∅ ∅.

(** First loop: [for (const trigger of triggerNodes) visit(trigger.id)]. *)
Definition visitTriggers (fuel : nat) (nodes : list WorkflowNode) : SortResult SortState :=
  forEach (fun trigger => visit fuel nodes (id trigger)) (List.filter isTrigger nodes) emptySort.

(** Second loop: [for (const node of nodes) if (!visited.has(node.id)) visit(node.id)]. *)
Definition visitRemaining (fuel : nat) (nodes : list WorkflowNode) (st : SortState)
    : SortResult SortState :=
  forEach (fun node st' =>
             if decide (id node ∈ visited st') then Sorted st'
             else visit fuel nodes (id node) st')
          nodes st.

(** [topologicalSort(nodes)].  A recursion path holds pairwise different ids
    that all resolve to a node, except possibly the last, so a depth of
    [length nodes + 1] is never exceeded ([topologicalSort_total]) and a
    larger bound gives the same result ([topologicalSort_fuel_irrelevant]). *)
Definition topologicalSort (nodes : list WorkflowNode) : SortResult (list WorkflowNode) :=
  let fuel := S (length nodes) in
  match visitTriggers fuel nodes with
  | Sorted st1 =>
      match visitRemaining fuel nodes st1 with
      | Sorted st2 => Sorted (sorted st2)
      | CircularDependency => CircularDependency
      | FuelExhausted => FuelExhausted
      end
  | CircularDependency => CircularDependency
  | FuelExhausted => FuelExhausted
  end.

(** *** Vocabulary of the ordering properties *)

(** [u -> v]: the node that the id [u] resolves to lists [v] in [connected]. *)
Definition edge (nodes : list WorkflowNode) (u v : string) : Prop :=
  ∃ n, lookupNode nodes u = Some n ∧ In v (connected n).

Definition acyclic (nodes : list WorkflowNode) : Prop :=
  ∀ u, ¬ tc (edge nodes) u u.

(** The ids of a node list, as a set. *)
Definition idSet (nodes : list WorkflowNode) : gset string := list_to_set (map id nodes).

(** [x] occurs strictly before [y] in [l]. *)
Definition Before {A : Type} (x y : A) (l : list A) : Prop :=
  ∃ l1 l2 l3, l = l1 ++ x :: l2 ++ y :: l3.

(** [n] is reachable from a trigger node of [nodes] (in zero or more steps). *)
Definition fromTrigger (nodes : list WorkflowNode) (n : WorkflowNode) : Prop :=
  ∃ t, In t nodes ∧ isTrigger t = true ∧ rtc (edge nodes) (id t) (id n).

(** [r] stands at or before [a] in the input list. *)
Definition AtOrBefore {A : Type} (r a : A) (l : list A) : Prop :=
  ∃ l1 l2, l = l1 ++ a :: l2 ∧ In r (l1 ++ [a]).

(** ** JavaScript operations used by the engine *)

(** [!!v] *)
Definition truthy (v : JsVal) : bool :=
  match v with
  | JUndefined | JNull => false
  | JBool b => b
  | JNum n => negb (n =? 0)%Z
  | JStr s => negb (String.eqb s "")
  | JArr _ | JObj _ => true
  end.

(** [a || b] on values already evaluated. *)
Definition orElse (a b : JsVal) : JsVal := if truthy a then a else b.

Definition isNullish (v : JsVal) : bool :=
  match v with JUndefined | JNull => true | _ => false end.

(** [v === 'text'] *)
Definition strictEqStr (v : JsVal) (text : string) : bool :=
  match v with JStr s => String.eqb s text | _ => false end.

Fixpoint assocGet (fields : list (string * JsVal)) (key : string) : JsVal :=
  match fields with
  | [] => JUndefined
  | (k, v) :: rest => if String.eqb k key then v else assocGet rest key
  end.

(** [obj[key] = v] on the property list: an existing property keeps its
    place, a new one is appended. *)
Fixpoint setProp (fields : list (string * JsVal)) (key : string) (v : JsVal)
    : list (string * JsVal) :=
  match fields with
  | [] => [(key, v)]
  | (k, old) :: rest =>
      if String.eqb k key then (k, v) :: rest else (k, old) :: setProp rest key v
  end.

(** The position an index-like property name denotes, below [n]. *)
Definition indexOfKey (n : nat) (key : string) : option nat :=
  find (fun i => String.eqb (pretty i) key) (seq 0 n).

Fixpoint stringChars (s : string) : list JsVal :=
  match s with
  | EmptyString => []
  | String c rest => JStr (String c EmptyString) :: stringChars rest
  end.

(** [v.key] / [v[key]] for [v] neither null nor undefined.  Arrays and strings
    answer [length] and their indices; methods of the built-in prototypes are
    not values of this embedding. *)
Definition readProp (v : JsVal) (key : string) : JsVal :=
  match v with
  | JObj fields => assocGet fields key
  | JArr items =>
      if String.eqb key "length" then JNum (Z.of_nat (length items))
      else match indexOfKey (length items) key with
           | Some i => nth i items JUndefined
           | None => JUndefined
           end
  | JStr s =>
      if String.eqb key "length" then JNum (Z.of_nat (String.length s))
      else match indexOfKey (String.length s) key with
           | Some i => nth i (stringChars s) JUndefined
           | None => JUndefined
           end
  | _ => JUndefined
  end.

(** Own enumerable properties copied by [{...v}]. *)
Definition spreadProps (v : JsVal) : list (string * JsVal) :=
  match v with
  | JObj fields => fields
  | JArr items => imap (fun i x => (pretty i, x)) items
  | JStr s => imap (fun i x => (pretty i, x)) (stringChars s)
  | _ => []
  end.

(** The line feed of the template literal in [executePublisherNode]. *)
Definition newline : string := String (ascii_of_nat 10) EmptyString.

Fixpoint joinWith (sep : string) (parts : list string) : string :=
  match parts with
  | [] => ""
  | [p] => p
  | p :: rest => p +:+ sep +:+ joinWith sep rest
  end.

(** *** [Number::toString]

    A number is printed with the fewest digits that read back as the same
    double: all digits up to 2^53; beyond, the digits that matter followed by
    zeros, and from 10^21 on in exponent form. *)

(** The double nearest to a positive integer, ties to the even mantissa. *)
Definition roundToDouble (v : Z) : Z :=
  let bits := (Z.log2 v + 1)%Z in
  if (bits <=? 53)%Z then v
  else
    let e := (bits - 53)%Z in
    let q := Z.shiftr v e in
    let r := Z.land v (Z.ones e) in
    let half := Z.shiftl 1 (e - 1) in
    let q' := if (half <? r)%Z || ((r =? half)%Z && Z.odd q) then (q + 1)%Z else q in
    Z.shiftl q' e.

(** The pairs [(s, n)] with [k] digits in [s] for which [s * 10^(n-k)] reads
    back as the double [x], each with the value it denotes. *)
Definition doubleCandidates (x : Z) (k : nat) : list (Z * nat * Z) :=
  let digits := String.length (pretty x) in
  let at_ (n : nat) : list (Z * nat * Z) :=
    let p := (10 ^ Z.of_nat (n - k))%Z in
    [((x / p)%Z, n, (x / p * p)%Z); ((x / p + 1)%Z, n, ((x / p + 1) * p)%Z)] in
  List.filter
    (fun '(s, _, v) =>
       (10 ^ (Z.of_nat k - 1) <=? s)%Z && (s <? 10 ^ Z.of_nat k)%Z &&
       (roundToDouble v =? x)%Z)
    (at_ digits ++ at_ (S digits)).

(** The candidate nearest to [x]; of two at the same distance, the even one. *)
Fixpoint pickClosest (x : Z) (cs : list (Z * nat * Z)) : option (Z * nat * Z) :=
  match cs with
  | [] => None
  | (s, n, v) :: rest =>
      match pickClosest x rest with
      | Some (s', n', v') =>
          if (Z.abs (v' - x) <? Z.abs (v - x))%Z ||
             ((Z.abs (v' - x) =? Z.abs (v - x))%Z && Z.even s')
          then Some (s', n', v') else Some (s, n, v)
      | None => Some (s, n, v)
      end
  end.

(** [n], [k] and [s] of [Number::toString]: [k] as small as possible. *)
Fixpoint shortestDigits (fuel k : nat) (x : Z) : Z * nat :=
  match fuel with
  | O => (x, String.length (pretty x))
  | S fuel' =>
      match pickClosest x (doubleCandidates x k) with
      | Some (s, n, _) => (s, n)
      | None => shortestDigits fuel' (S k) x
      end
  end.

Fixpoint zeros (n : nat) : string :=
  match n with
  | O => ""
  | S m => "0" +:+ zeros m
  end.

Definition numberToString (n : Z) : string :=
  if (Z.abs n <=? 2 ^ 53)%Z then pretty n
  else
    let x := roundToDouble (Z.abs n) in
    let sign := if (n <? 0)%Z then "-" else "" in
    if (2 ^ 1024 <=? x)%Z then sign +:+ "Infinity"
    else
      let '(s, e) := shortestDigits (String.length (pretty x)) 1 x in
      let digits := pretty s in
      sign +:+
      (if (e <=? 21)%nat then digits +:+ zeros (e - String.length digits)
       else match digits with
            | EmptyString => ""
            | String d EmptyString => String d "e+" +:+ pretty (e - 1)%nat
            | String d rest => String d ("." +:+ rest) +:+ "e+" +:+ pretty (e - 1)%nat
            end).

(** [String(v)], the conversion of template literals. *)
Fixpoint toStringJs (v : JsVal) : string :=
  match v with
  | JUndefined => "undefined"
  | JNull => "null"
  | JBool true => "true"
  | JBool false => "false"
  | JNum n => numberToString n
  | JStr s => s
  | JArr items =>
      joinWith "," (map (fun x => if isNullish x then "" else toStringJs x) items)
  | JObj _ => "[object Object]"
  end.

(** The lower-case mapping of Unicode on one code unit below 256: the
    capitals A to Z (65 to 90), À to Ö (192 to 214) and Ø to Þ (216 to 222) go
    to the code unit 32 above; every other one, the sign × (215) and the
    small letters µ, ß and ÿ included, is kept. *)
Definition lowerCodeUnit (c : ascii) : ascii :=
  let n := nat_of_ascii c in
  if ((65 <=? n)%nat && (n <=? 90)%nat) ||
     ((192 <=? n)%nat && (n <=? 214)%nat) ||
     ((216 <=? n)%nat && (n <=? 222)%nat)
  then ascii_of_nat (n + 32) else c.

(** [s.toLowerCase()]: below 256 no mapping depends on the neighbours or
    changes the length, so the string is mapped unit by unit. *)
Fixpoint toLowerCase (s : string) : string :=
  match s with
  | EmptyString => EmptyString
  | String c rest => String (lowerCodeUnit c) (toLowerCase rest)
  end.

Fixpoint startsWith (s sub : string) : bool :=
  match sub, s with
  | EmptyString, _ => true
  | String _ _, EmptyString => false
  | String b sub', String a s' => Ascii.eqb a b && startsWith s' sub'
  end.

(** [s.includes(sub)] *)
Fixpoint includes (s sub : string) : bool :=
  startsWith s sub ||
  match s with
  | EmptyString => false
  | String _ rest => includes rest sub
  end.

(** ** Execution contexts, the outside world and the environment *)

Record WorkflowExecutionContext : Type := mkContext {
  executionId : JsVal;
  data : JsVal;
  metadata : gmap string JsVal
}.

(** A request sent to the execution-record store:
    [from(table).insert(row).select().single()] or
    [from(table).update(fields).eq(column, value)]. *)
Inductive StoreOp : Type :=
| OpInsert (table : string) (row : JsVal)
| OpUpdate (table : string) (fields : JsVal) (column : string) (value : JsVal).

(** What a run leaves behind: the requests sent to the store, the
    [functions.invoke] requests (name and body), both oldest first, and, as a
    ghost record, every execution context the run has built. *)
Record World : Type := mkWorld {
  storeOps : list StoreOp;
  calls : list (string * JsVal);
  created : list WorkflowExecutionContext
}.

(** The collaborators and the host, as functions of what happened so far.
    [insertResponse] and [invokeResponse] give the pair [{data, error}] the
    client resolves with (it does not throw); the response to an update is
    never looked at by the engine.  [dateParse] and [stringToNumber] give
    [None] for [NaN]. *)
Record Env : Type := mkEnv {
  insertResponse : World -> string -> JsVal -> JsVal * JsVal;
  invokeResponse : World -> string -> JsVal -> JsVal * JsVal;
  currentTime : World -> Z;
  toISOString : Z -> string;
  randomUUID : World -> string;
  dateParse : string -> option Z;
  stringToNumber : string -> option Z
}.

(** Thrown values: an [Error] instance with its message ([isTypeError] tells
    a [TypeError] raised by the language from an [Error] thrown by the code),
    any other thrown value, and the recursion bound of the embedded sort. *)
Inductive Exn : Type :=
| JsError (isTypeError : bool) (message : string)
| JsThrown (v : JsVal)
| BoundReached.

Inductive Completion (A : Type) : Type :=
| Normal (a : A)
| Throw (e : Exn).
Arguments Normal {A} a.
Arguments Throw {A} e.

(** Effectful computations: world passing with exceptions. *)
Definition Eff (A : Type) : Type := World -> Completion A * World.

Definition ret {A} (a : A) : Eff A := fun w => (Normal a, w).

Definition throw {A} (e : Exn) : Eff A := fun w => (Throw e, w).

Definition bind {A B} (c : Eff A) (k : A -> Eff B) : Eff B :=
  fun w =>
    match c w with
    | (Normal a, w') => k a w'
    | (Throw e, w') => (Throw e, w')
    end.

(** [try { body } catch (error) { handler(error) }]: what [body] did to the
    world before throwing stays done. *)
Definition tryCatch {A} (body : Eff A) (handler : Exn -> Eff A) : Eff A :=
  fun w =>
    match body w with
    | (Normal a, w') => (Normal a, w')
    | (Throw e, w') => handler e w'
    end.

Declare Scope eff_scope.
Notation "x ← y ; z" := (bind y (λ x : _, z))
  (at level 20, y at level 100, z at level 200, only parsing) : eff_scope.
Notation "' x ← y ; z" := (bind y (λ x : _, z))
  (at level 20, x pattern, y at level 100, z at level 200, only parsing) : eff_scope.
Local Open Scope eff_scope.

Fixpoint mapEff {A B} (f : A -> Eff B) (l : list A) : Eff (list B) :=
  match l with
  | [] => ret []
  | x :: rest => y ← f x; ys ← mapEff f rest; ret (y :: ys)
  end.

Definition typeError {A} (message : string) : Eff A := throw (JsError true message).

(** [v.key] for any [v]: reading a property of null or undefined throws. *)
Definition getProp (v : JsVal) (key : string) : Eff JsVal :=
  if isNullish v then typeError "Cannot read properties of null or undefined"
  else ret (readProp v key).

(** [a || b] with [b] evaluated only when [a] is falsy. *)
Definition orElseM (a : JsVal) (b : Eff JsVal) : Eff JsVal :=
  if truthy a then ret a else b.

(** [v.map(f)]: only arrays have the method. *)
Definition arrayMap (v : JsVal) (f : JsVal -> Eff JsVal) : Eff JsVal :=
  match v with
  | JArr items => ys ← mapEff f items; ret (JArr ys)
  | _ => typeError "map is not a function"
  end.

(** ** Relational comparison and dates *)

(** [ToPrimitive]: arrays and objects convert through their string form. *)
Definition toPrimitive (v : JsVal) : JsVal :=
  match v with
  | JArr _ | JObj _ => JStr (toStringJs v)
  | _ => v
  end.

(** [ToNumber] of a primitive; [None] is [NaN]. *)
Definition toNumber (env : Env) (v : JsVal) : option Z :=
  match v with
  | JUndefined => None
  | JNull => Some 0%Z
  | JBool b => Some (if b then 1 else 0)%Z
  | JNum n => Some n
  | JStr s => stringToNumber env s
  | JArr _ | JObj _ => None
  end.

(** The abstract relational comparison [x < y]; [None] is "undefined" (a
    [NaN] operand). Two strings compare by their characters. *)
Definition isLessThan (env : Env) (x y : JsVal) : option bool :=
  match toPrimitive x, toPrimitive y with
  | JStr a, JStr b => Some (String.ltb a b)
  | px, py =>
      match toNumber env px, toNumber env py with
      | Some a, Some b => Some (a <? b)%Z
      | _, _ => None
      end
  end.

(** [x <= y] is "not ([y < x] true or undefined)". *)
Definition jsLe (env : Env) (x y : JsVal) : bool :=
  match isLessThan env y x with Some false => true | _ => false end.

(** [x >= y] is "not ([x < y] true or undefined)". *)
Definition jsGe (env : Env) (x y : JsVal) : bool :=
  match isLessThan env x y with Some false => true | _ => false end.

(** Milliseconds a [Date] can hold on either side of the epoch. *)
Definition maxTime : Z := 8640000000000000.

(** [new Date(v)] as its time value; [None] is an Invalid Date. *)
Definition newDate (env : Env) (v : JsVal) : option Z :=
  match toPrimitive v with
  | JStr s => dateParse env s
  | p =>
      match toNumber env p with
      | Some n => if (Z.abs n <=? maxTime)%Z then Some n else None
      | None => None
      end
  end.

(** [a <= b] and [a >= b] on two [Date] objects: a comparison of the time
    values, false when either is [NaN]. *)
Definition dateLe (a b : option Z) : bool :=
  match a, b with Some x, Some y => (x <=? y)%Z | _, _ => false end.

Definition dateGe (a b : option Z) : bool :=
  match a, b with Some x, Some y => (x >=? y)%Z | _, _ => false end.

(** ** Effects of the engine *)

(** [new Date().toISOString()] *)
Definition nowISO (env : Env) : Eff JsVal :=
  fun w => (Normal (JStr (toISOString env (currentTime env w))), w).

(** [new Date().getTime()] *)
Definition nowTime (env : Env) : Eff Z :=
  fun w => (Normal (currentTime env w), w).

(** The three ways a step changes the world. *)
Definition logCall (name : string) (body : JsVal) (w : World) : World :=
  mkWorld (storeOps w) (calls w ++ [(name, body)]) (created w).

Definition logStore (op : StoreOp) (w : World) : World :=
  mkWorld (storeOps w ++ [op]) (calls w) (created w).

Definition logCreated (cs : list WorkflowExecutionContext) (w : World) : World :=
  mkWorld (storeOps w) (calls w) (created w ++ cs).

(** [supabase.functions.invoke(name, { body })], giving [(data, error)]. *)
Definition invoke (env : Env) (name : string) (body : JsVal) : Eff (JsVal * JsVal) :=
  fun w => (Normal (invokeResponse env w name body), logCall name body w).

(** [supabase.from(table).insert(row).select().single()] *)
Definition storeInsert (env : Env) (table : string) (row : JsVal) : Eff (JsVal * JsVal) :=
  fun w => (Normal (insertResponse env w table row), logStore (OpInsert table row) w).

(** [await supabase.from(table).update(fields).eq(column, value)]; the
    resolved value is dropped by the engine. *)
Definition storeUpdate (table : string) (fields : JsVal) (column : string) (value : JsVal)
    : Eff unit :=
  fun w => (Normal tt, logStore (OpUpdate table fields column value) w).

(** Ghost: note the contexts just built. *)
Definition noteCreated (cs : list WorkflowExecutionContext) : Eff unit :=
  fun w => (Normal tt, logCreated cs w).

(** [if (error) throw error] *)
Definition throwIfError (error : JsVal) : Eff unit :=
  if truthy error then throw (JsThrown error) else ret tt.

(** ** Node handlers

    Every handler but the trigger and the filter wraps its body in
    [try { ... } catch (error) { console.error(...); throw error; }], which
    rethrows what it caught; console output is not part of the embedding. *)

Definition executeTriggerNode (node : WorkflowNode) (context : WorkflowExecutionContext)
    : Eff JsVal :=
  ret (data context).

(** [new Date(now.getTime() - ms).toISOString()] *)
Definition isoBefore (env : Env) (now ms : Z) : JsVal :=
  JStr (toISOString env (now - ms)).

Definition executeNewsDiscoveryNode (env : Env) (node : WorkflowNode)
    (context : WorkflowExecutionContext) : Eff JsVal :=
  now ← nowTime env;
  timeRange ← getProp (config node) "timeRange";
  '(fromDate, toDate) ←
    (if strictEqStr timeRange "custom" then
       fromDate ← getProp (config node) "fromDate";
       toDate ← getProp (config node) "toDate";
       ret (fromDate, toDate)
     else if strictEqStr timeRange "hour" then
       ret (isoBefore env now (60 * 60 * 1000), JUndefined)
     else if strictEqStr timeRange "day" then
       ret (isoBefore env now (24 * 60 * 60 * 1000), JUndefined)
     else if strictEqStr timeRange "week" then
       ret (isoBefore env now (7 * 24 * 60 * 60 * 1000), JUndefined)
     else if strictEqStr timeRange "month" then
       ret (isoBefore env now (30 * 24 * 60 * 60 * 1000), JUndefined)
     else ret (JUndefined, JUndefined));
  keywords ← getProp (config node) "keywords";
  source ← getProp (config node) "source";
  sources ← getProp (config node) "sources";
  maxResults ← getProp (config node) "maxResults";
  '(response, error) ← invoke env "news-discovery"
    (JObj [("keywords", orElse keywords (JArr [JStr "AI"; JStr "technology"]));
           ("source", orElse source (orElse sources (JStr "all")));
           ("maxResults", orElse maxResults (JNum 10));
           ("timeRange", orElse timeRange (JStr "day"));
           ("fromDate", fromDate);
           ("toDate", toDate);
           ("saveToQueue", JBool true)]);
  _ ← throwIfError error;
  found ← getProp response "articles";
  let articles := orElse found (JArr []) in
  count ← getProp articles "length";
  match count with
  | JNum 0 => ret (JArr [])
  | _ =>
      arrayMap articles (fun article =>
        ret (JObj (setProp (setProp (spreadProps article)
                      "source_type" (JStr "news_discovery"))
                      "execution_context" (executionId context))))
  end.

Definition executeRssAggregatorNode (env : Env) (node : WorkflowNode)
    (context : WorkflowExecutionContext) : Eff JsVal :=
  feeds ← getProp (config node) "feeds";
  maxItemsPerFeed ← getProp (config node) "maxItemsPerFeed";
  '(response, error) ← invoke env "rss-aggregator"
    (JObj [("feeds", orElse feeds (JArr []));
           ("maxItemsPerFeed", orElse maxItemsPerFeed (JNum 5))]);
  _ ← throwIfError error;
  found ← getProp response "items";
  arrayMap (orElse found (JArr [])) (fun item =>
    ret (JObj (setProp (setProp (spreadProps item)
                  "source_type" (JStr "rss"))
                  "execution_context" (executionId context)))).

Definition executeGoogleScholarNode (env : Env) (node : WorkflowNode)
    (context : WorkflowExecutionContext) : Eff JsVal :=
  configured ← getProp (config node) "query";
  query ← orElseM configured
             (keywords ← getProp (data context) "keywords";
              ret (orElse keywords (JStr "AI research")));
  maxResults ← getProp (config node) "maxResults";
  yearFrom ← getProp (config node) "yearFrom";
  yearTo ← getProp (config node) "yearTo";
  sort ← getProp (config node) "sort";
  language ← getProp (config node) "language";
  includeAbstracts ← getProp (config node) "includeAbstracts";
  includeCitations ← getProp (config node) "includeCitations";
  '(response, error) ← invoke env "google-scholar-search"
    (JObj [("query", query);
           ("maxResults", orElse maxResults (JNum 10));
           ("yearFrom", yearFrom);
           ("yearTo", yearTo);
           ("sort", orElse sort (JStr "relevance"));
           ("language", orElse language (JStr "en"));
           ("includeAbstracts",
              JBool (match includeAbstracts with JBool false => false | _ => true end));
           ("includeCitations", orElse includeCitations (JBool false))]);
  _ ← throwIfError error;
  found ← getProp response "papers";
  let papers := orElse found (JArr []) in
  count ← getProp papers "length";
  match count with
  | JNum 0 => ret (JArr [])
  | _ =>
      arrayMap papers (fun paper =>
        title ← getProp paper "title";
        abstract ← getProp paper "abstract";
        url ← getProp paper "url";
        published ← nowISO env;
        authors ← getProp paper "authors";
        citations ← getProp paper "citations";
        venue ← getProp paper "venue";
        ret (JObj [("title", title);
                   ("content", orElse abstract (JStr ""));
                   ("description", orElse abstract (JStr ""));
                   ("url", orElse url (JStr ""));
                   ("source_type", JStr "academic");
                   ("source_url", orElse url (JStr ""));
                   ("published_date", published);
                   ("authors", match authors with JArr _ => authors | _ => JArr [] end);
                   ("citations", orElse citations (JNum 0));
                   ("venue", orElse venue (JStr ""));
                   ("execution_context", executionId context)]))
  end.

Definition executePerplexityResearchNode (env : Env) (node : WorkflowNode)
    (context : WorkflowExecutionContext) : Eff JsVal :=
  configured ← getProp (config node) "query";
  query ← orElseM configured
             (title ← getProp (data context) "title";
              ret (orElse title (JStr "research query")));
  mode ← getProp (config node) "mode";
  '(response, error) ← invoke env "perplexity-research"
    (JObj [("query", query); ("mode", orElse mode (JStr "comprehensive"))]);
  _ ← throwIfError error;
  ret (JObj (setProp (setProp (setProp (spreadProps (data context))
                "research_data" response)
                "source_type" (JStr "research"))
                "execution_context" (executionId context))).

Definition executeMultiSourceSynthesizerNode (env : Env) (node : WorkflowNode)
    (context : WorkflowExecutionContext) : Eff JsVal :=
  synthesisType ← getProp (config node) "synthesisType";
  tone ← getProp (config node) "tone";
  '(response, error) ← invoke env "multi-source-synthesizer"
    (JObj [("sources", JArr [data context]);
           ("synthesisType", orElse synthesisType (JStr "comprehensive"));
           ("tone", orElse tone (JStr "professional"))]);
  _ ← throwIfError error;
  ret (JObj (setProp (setProp (spreadProps (data context))
                "synthesized_content" response)
                "execution_context" (executionId context))).

Definition executeAiProcessorNode (env : Env) (node : WorkflowNode)
    (context : WorkflowExecutionContext) : Eff JsVal :=
  prompt ← getProp (config node) "prompt";
  content ← getProp (data context) "content";
  description ← getProp (data context) "description";
  tone ← getProp (config node) "tone";
  len ← getProp (config node) "length";
  '(response, error) ← invoke env "ai-content-generator"
    (JObj [("prompt", orElse prompt (JStr "Generate article content"));
           ("content", orElse content (orElse description (JStr "")));
           ("tone", orElse tone (JStr "professional"));
           ("length", orElse len (JStr "medium"))]);
  _ ← throwIfError error;
  ret (JObj (setProp (setProp (spreadProps (data context))
                "ai_content" response)
                "execution_context" (executionId context))).

(** [text?.toLowerCase().includes(filter.value.toLowerCase())], as the
    truth value the [!] in front of it sees.  A null or undefined [text]
    short-circuits the whole chain; [toLowerCase] exists on strings only. *)
Definition lowerIncludes (text filter : JsVal) : Eff bool :=
  if isNullish text then ret false
  else match text with
       | JStr t =>
           value ← getProp filter "value";
           match value with
           | JStr v => ret (includes (toLowerCase t) (toLowerCase v))
           | JUndefined | JNull => typeError "Cannot read properties of null or undefined"
           | _ => typeError "filter.value.toLowerCase is not a function"
           end
       | _ => typeError "toLowerCase is not a function"
       end.

(** One turn of the loop of [executeFilterNode]: the [switch (filter.type)];
    [true] when the turn ends in [return null]. *)
Definition filterRejects (env : Env) (filter data : JsVal) : Eff bool :=
  kind ← getProp filter "type";
  if strictEqStr kind "keyword" then
    title ← getProp data "title";
    inTitle ← lowerIncludes title filter;
    if inTitle then ret false
    else
      content ← getProp data "content";
      inContent ← lowerIncludes content filter;
      ret (negb inContent)
  else if strictEqStr kind "date" then
    publishedAt ← getProp data "publishedAt";
    published_date ← getProp data "published_date";
    let articleDate := newDate env (orElse publishedAt published_date) in
    value ← getProp filter "value";
    let filterDate := newDate env value in
    operator ← getProp filter "operator";
    if strictEqStr operator "after" && dateLe articleDate filterDate then ret true
    else if strictEqStr operator "before" && dateGe articleDate filterDate then ret true
    else ret false
  else if strictEqStr kind "score" then
    priority ← getProp data "priority_score";
    let score := orElse priority (JNum 0) in
    operator ← getProp filter "operator";
    value ← getProp filter "value";
    if strictEqStr operator "gt" && jsLe env score value then ret true
    else if strictEqStr operator "lt" && jsGe env score value then ret true
    else ret false
  else ret false.

Fixpoint filterLoop (env : Env) (filters : list JsVal) (data : JsVal) : Eff JsVal :=
  match filters with
  | [] => ret data
  | filter :: rest =>
      rejected ← filterRejects env filter data;
      if rejected then ret JNull else filterLoop env rest data
  end.

(** What [for (const x of v)] runs through. *)
Definition iterate (v : JsVal) : Eff (list JsVal) :=
  match v with
  | JArr items => ret items
  | JStr s => ret (stringChars s)
  | _ => typeError "filters is not iterable"
  end.

Definition executeFilterNode (env : Env) (node : WorkflowNode)
    (context : WorkflowExecutionContext) : Eff JsVal :=
  configured ← getProp (config node) "filters";
  filters ← iterate (orElse configured (JArr []));
  filterLoop env filters (data context).

Definition executePublisherNode (env : Env) (node : WorkflowNode)
    (context : WorkflowExecutionContext) : Eff JsVal :=
  ai_content ← getProp (data context) "ai_content";
  let aiText := if isNullish ai_content then JUndefined else readProp ai_content "content" in
  content ← getProp (data context) "content";
  description ← getProp (data context) "description";
  let articleContent := orElse aiText (orElse content (orElse description (JStr ""))) in
  titleField ← getProp (data context) "title";
  let title := orElse titleField (JStr "Generated Article") in
  category ← getProp (config node) "category";
  reporterId ← getProp (config node) "reporterId";
  summary ← getProp (data context) "summary";
  let fullContent :=
    "# " +:+ toStringJs title +:+ newline +:+ newline +:+
    toStringJs (orElse summary (orElse description (JStr ""))) +:+ newline +:+ newline +:+
    toStringJs articleContent in
  autoPublish ← getProp (config node) "autoPublish";
  '(response, error) ← invoke env "create-article-from-ai"
    (JObj [("content", JStr fullContent);
           ("category", orElse category (JStr "AI Generated"));
           ("provider", JStr "AI Processor");
           ("status", JStr (if truthy autoPublish then "published" else "draft"));
           ("reporterId", orElse reporterId JNull)]);
  _ ← throwIfError error;
  ret (JObj (setProp (setProp (spreadProps (data context))
                "published_article" response)
                "execution_context" (executionId context))).

(** ** Node executor: [executeNode] *)

Definition executeNode (env : Env) (node : WorkflowNode)
    (context : WorkflowExecutionContext) : Eff JsVal :=
  if String.eqb (type node) "trigger" then executeTriggerNode node context
  else if String.eqb (type node) "news-discovery" then executeNewsDiscoveryNode env node context
  else if String.eqb (type node) "rss-aggregator" then executeRssAggregatorNode env node context
  else if String.eqb (type node) "google-scholar-search" then
    executeGoogleScholarNode env node context
  else if String.eqb (type node) "perplexity-research" then
    executePerplexityResearchNode env node context
  else if String.eqb (type node) "multi-source-synthesizer" then
    executeMultiSourceSynthesizerNode env node context
  else if String.eqb (type node) "ai-processor" then executeAiProcessorNode env node context
  else if String.eqb (type node) "filter" then executeFilterNode env node context
  else if String.eqb (type node) "publisher" then executePublisherNode env node context
  else ret (data context).

(** ** Context fan-out: the inner loop of [executeWorkflow] *)

(** [`${node.type}_${node.id}`] *)
Definition metadataKey (node : WorkflowNode) : string := type node +:+ "_" +:+ id node.

(** The context pushed for the element [result] at position [index] of an
    array of results. *)
Definition spawn (node : WorkflowNode) (context : WorkflowExecutionContext)
    (index : nat) (result : JsVal) : WorkflowExecutionContext :=
  mkContext
    (JStr (toStringJs (executionId context) +:+ "-" +:+ id node +:+ "-" +:+ pretty index))
    result
    (<[metadataKey node := result]> (metadata context)).

(** What one evaluation of [executeNode] adds to [newContexts]. *)
Definition fanOut (node : WorkflowNode) (context : WorkflowExecutionContext)
    (nodeResults : JsVal) : list WorkflowExecutionContext :=
  match nodeResults with
  | JArr results => imap (spawn node context) results
  | JUndefined | JNull => []
  | _ => [mkContext (executionId context) nodeResults
                    (<[metadataKey node := nodeResults]> (metadata context))]
  end.

(** Body of [for (let i = 0; i < executionContexts.length; i++)]: the
    [try]/[catch] around one context; gives the new value of [newContexts]. *)
Definition processContext (env : Env) (node : WorkflowNode)
    (newContexts : list WorkflowExecutionContext) (context : WorkflowExecutionContext)
    : Eff (list WorkflowExecutionContext) :=
  tryCatch
    (nodeResults ← executeNode env node context;
     let pushed := fanOut node context nodeResults in
     _ ← noteCreated pushed;
     ret (newContexts ++ pushed))
    (fun _ => ret newContexts).

Fixpoint processContexts (env : Env) (node : WorkflowNode)
    (executionContexts newContexts : list WorkflowExecutionContext)
    : Eff (list WorkflowExecutionContext) :=
  match executionContexts with
  | [] => ret newContexts
  | context :: rest =>
      newContexts' ← processContext env node newContexts context;
      processContexts env node rest newContexts'
  end.

(** [for (const node of sortedNodes)] with its [break] on an empty generation. *)
Fixpoint runNodes (env : Env) (sortedNodes : list WorkflowNode)
    (executionContexts : list WorkflowExecutionContext)
    : Eff (list WorkflowExecutionContext) :=
  match sortedNodes with
  | [] => ret executionContexts
  | node :: rest =>
      newContexts ← processContexts env node executionContexts [];
      match newContexts with
      | [] => ret newContexts
      | _ :: _ => runNodes env rest newContexts
      end
  end.

(** ** Execution coordinator: [executeWorkflow] *)

Definition cycleMessage : string := "Circular dependency detected in workflow".

(** [topologicalSort(nodes)] inside the coordinator's [try]. *)
Definition sortNodes (nodes : list WorkflowNode) : Eff (list WorkflowNode) :=
  match topologicalSort nodes with
  | Sorted sortedNodes => ret sortedNodes
  | CircularDependency => throw (JsError false cycleMessage)
  | FuelExhausted => throw BoundReached
  end.

(** [error instanceof Error ? error.message : 'Unknown error'] *)
Definition errorMessage (e : Exn) : string :=
  match e with
  | JsError _ message => message
  | _ => "Unknown error"
  end.

Definition executionsTable : string := "workflow_executions".

(** The object passed to [insert]: a record in status [running]. *)
Definition initialRecord (env : Env) (workflowId : string) (w : World) : JsVal :=
  JObj [("workflow_rule_id", JStr workflowId);
        ("suggestion_id", JStr (randomUUID env w));
        ("status", JStr "running");
        ("started_at", JStr (toISOString env (currentTime env w)))].

(** The object passed to [update] on normal completion. *)
Definition completedFields (completed_at : JsVal)
    (executionContexts : list WorkflowExecutionContext) : JsVal :=
  JObj [("status", JStr "completed");
        ("completed_at", completed_at);
        ("result",
          JObj [("contexts", JNum (Z.of_nat (length executionContexts)));
                ("final_results", JArr (map data executionContexts))])].

(** The object passed to [update] in the coordinator's [catch]. *)
Definition failedFields (completed_at : JsVal) (error : Exn) : JsVal :=
  JObj [("status", JStr "failed");
        ("completed_at", completed_at);
        ("error_message", JStr (errorMessage error))].

(** The root context: [{ executionId: execution.id, data: triggerData || {},
    metadata: {} }]. *)
Definition rootContext (rootId triggerData : JsVal) : WorkflowExecutionContext :=
  mkContext rootId (orElse triggerData (JObj [])) ∅.

Definition executeWorkflow (env : Env) (workflowId : string) (nodes : list WorkflowNode)
    (triggerData : JsVal) : Eff JsVal :=
  row ← (fun w => (Normal (initialRecord env workflowId w), w));
  '(execution, error) ← storeInsert env executionsTable row;
  _ ← throwIfError error;
  tryCatch
    (sortedNodes ← sortNodes nodes;
     rootId ← getProp execution "id";
     _ ← noteCreated [rootContext rootId triggerData];
     executionContexts ← runNodes env sortedNodes [rootContext rootId triggerData];
     completed_at ← nowISO env;
     recordId ← getProp execution "id";
     _ ← storeUpdate executionsTable (completedFields completed_at executionContexts)
           "id" recordId;
     ret (JArr [JObj (setProp (spreadProps execution) "status" (JStr "completed"))]))
    (fun error =>
       completed_at ← nowISO env;
       recordId ← getProp execution "id";
       _ ← storeUpdate executionsTable (failedFields completed_at error) "id" recordId;
       throw error).

(** The world once the insert has been sent. *)
Definition afterInsert (env : Env) (workflowId : string) (w : World) : World :=
  logStore (OpInsert executionsTable (initialRecord env workflowId w)) w.

(** The world in which the first node is run: the insert sent and the root
    context built. *)
Definition runStart (env : Env) (workflowId : string) (triggerData execution : JsVal)
    (w : World) : World :=
  logCreated [rootContext (readProp execution "id") triggerData] (afterInsert env workflowId w).

(** Whether an object has the property [key] at all. *)
Definition hasOwn (v : JsVal) (key : string) : bool :=
  match v with
  | JObj fields => existsb (fun p => String.eqb (fst p) key) fields
  | _ => false
  end.

(** A store request that sets [status] to [text]. *)
Definition updatesStatusTo (text : string) (op : StoreOp) : bool :=
  match op with
  | OpUpdate _ fields _ _ => strictEqStr (readProp fields "status") text
  | OpInsert _ _ => false
  end.

(** *** Invariant of the sort

    What holds of [sorted], [visited] and [visiting] between any two
    statements of [visit] executed at the same recursion depth. *)
Record SortInv (nodes : list WorkflowNode) (st : SortState) : Prop := mkSortInv {
  inv_visited : ∀ i, i ∈ visited st ↔ ∃ n, In n (sorted st) ∧ id n = i;
  inv_nodup : NoDup (map id (sorted st));
  inv_lookup : ∀ n, In n (sorted st) → lookupNode nodes (id n) = Some n;
  inv_order : ∀ l1 u l2 v nv, sorted st = l1 ++ u :: l2 → In v (connected u) →
      lookupNode nodes v = Some nv → In nv l1;
  inv_disjoint : ∀ i, i ∈ visiting st → i ∉ visited st
}.

(** What a normal return of the visits of [roots], started in [st], gives. *)
Definition VisitPost (nodes : list WorkflowNode) (roots : list string)
    (st st' : SortState) : Prop :=
  SortInv nodes st' ∧
  visiting st' = visiting st ∧
  (∃ ext, sorted st' = sorted st ++ ext ∧
          ∀ n, In n ext → ∃ c, In c roots ∧ rtc (edge nodes) c (id n)) ∧
  (∀ c nc, In c roots → lookupNode nodes c = Some nc → In nc (sorted st')).

(** ** Reference for the next generation

    The next generation as the specification words it: the results of the
    contexts for which the executor did not fail. *)

(** The results a returned value stands for: the elements of an array, none
    for null or undefined, the value itself otherwise. *)
Definition resultsOf (nodeResults : JsVal) : list JsVal :=
  match nodeResults with
  | JArr results => results
  | JUndefined | JNull => []
  | single => [single]
  end.

(** How the executor ends for each context of a generation, in order; every
    evaluation starts in the world the turns before it have left. *)
Fixpoint outcomes (env : Env) (node : WorkflowNode)
    (executionContexts : list WorkflowExecutionContext) (w : World)
    : list (Completion JsVal) :=
  match executionContexts with
  | [] => []
  | context :: rest =>
      let '(outcome, w1) := executeNode env node context w in
      outcome :: outcomes env node rest
                   match outcome with
                   | Normal nodeResults => logCreated (fanOut node context nodeResults) w1
                   | Throw _ => w1
                   end
  end.

(** The results of the evaluations that did not fail. *)
Definition survivors (ends : list (Completion JsVal)) : list JsVal :=
  flat_map (fun outcome => match outcome with
                           | Normal nodeResults => resultsOf nodeResults
                           | Throw _ => []
                           end) ends.

(** ** Reference evaluator of filter rules

    The rules as the specification words them, over a typed view of the
    payload, to be compared with [executeFilterNode]. *)



(** The capital letters: A to Z, À to Ö and Ø to Þ; the small letter of each
    stands 32 places further. *)
Definition capitals : list nat := seq 65 26 ++ seq 192 23 ++ seq 216 7.

(** Two characters that differ at most in case: the same character, or a
    capital and its small letter. *)
Definition sameLetter (a b : ascii) : bool :=
  let x := nat_of_ascii a in
  let y := nat_of_ascii b in
  (x =? y)%nat ||
  existsb (fun capital =>
             ((x =? capital)%nat && (y =? capital + 32)%nat) ||
             ((y =? capital)%nat && (x =? capital + 32)%nat))
          capitals.

(** Two texts that differ at most in case. *)
Fixpoint sameText (a b : string) : bool :=
  match a, b with
  | EmptyString, EmptyString => true
  | String x a', String y b' => sameLetter x y && sameText a' b'
  | _, _ => false
  end.

(** Every character. *)
Definition allCharacters : list ascii := map ascii_of_nat (seq 0 256).












(** ** Sample inputs *)

Definition emptyWorld : World := mkWorld [] [] [].

(** Collaborators for the samples: the store answers an insert with the row
    and the id [run-1]; the discovery function finds two articles; the publish
    function answers with the id of the created article; any other function
    answers with an error.  Dates are numbers of milliseconds. *)
Definition sampleEnv : Env :=
  mkEnv (fun _ _ row => (JObj (setProp (spreadProps row) "id" (JStr "run-1")), JNull))
        (fun _ name _ =>
           if String.eqb name "news-discovery" then
             (JObj [("articles", JArr [JObj [("title", JStr "Product launch today")];
                                        JObj [("title", JStr "Weather update")]])], JNull)
           else if String.eqb name "create-article-from-ai" then
             (JObj [("id", JNum 7)], JNull)
           else (JNull, JStr "function not deployed"))
        (fun w => Z.of_nat (length (storeOps w) + length (calls w)))
        (fun t => "T" +:+ pretty t)
        (fun _ => "00000000-0000-4000-8000-000000000000")
        (fun _ => None)
        (fun _ => None).

Definition launchFilter : JsVal :=
  JObj [("type", JStr "keyword"); ("value", JStr "launch")].

Definition triggerNode : WorkflowNode := mkNode "t" "trigger" "Start" (JObj []) ["d"].
Definition discoveryNode : WorkflowNode := mkNode "d" "news-discovery" "Discover" (JObj []) ["f"].
Definition filterNode : WorkflowNode :=
  mkNode "f" "filter" "Keep launches" (JObj [("filters", JArr [launchFilter])]) ["p"].
Definition publisherNode : WorkflowNode := mkNode "p" "publisher" "Publish" (JObj []) [].

(** The pipeline trigger -> discovery -> filter -> publisher. *)
Definition pipelineNodes : list WorkflowNode :=
  [triggerNode; discoveryNode; filterNode; publisherNode].

(** A trigger whose successor points back to it. *)
Definition loopNodes : list WorkflowNode :=
  [mkNode "t" "trigger" "Start" (JObj []) ["a"];
   mkNode "a" "filter" "Loop" (JObj []) ["t"]].

Definition sampleRoot : WorkflowExecutionContext :=
  rootContext (JStr "run-1") JUndefined.

(** Three contexts of one generation; the payload of the second is null. *)
Definition launchContext : WorkflowExecutionContext :=
  mkContext (JStr "run-1-d-0") (JObj [("title", JStr "Product launch today")]) ∅.
Definition brokenContext : WorkflowExecutionContext :=
  mkContext (JStr "run-1-d-1") JNull ∅.
Definition weatherContext : WorkflowExecutionContext :=
  mkContext (JStr "run-1-d-2") (JObj [("title", JStr "Weather update")]) ∅.

(** A date rule, and a payload without any date. *)
Definition afterRule : JsVal :=
  JObj [("type", JStr "date"); ("operator", JStr "after"); ("value", JNum 1700000000000)].

(** ** Vocabulary of the handler properties *)

(** The collaborator function a node of a given type invokes, if any. *)
Definition functionOf (nodeType : string) : option string :=
  if String.eqb nodeType "trigger" then None
  else if String.eqb nodeType "news-discovery" then Some "news-discovery"
  else if String.eqb nodeType "rss-aggregator" then Some "rss-aggregator"
  else if String.eqb nodeType "google-scholar-search" then Some "google-scholar-search"
  else if String.eqb nodeType "perplexity-research" then Some "perplexity-research"
  else if String.eqb nodeType "multi-source-synthesizer" then Some "multi-source-synthesizer"
  else if String.eqb nodeType "ai-processor" then Some "ai-content-generator"
  else if String.eqb nodeType "filter" then None
  else if String.eqb nodeType "publisher" then Some "create-article-from-ai"
  else None.

(** The field under which an enriching node stores the collaborator's
    answer in the payload. *)
Definition enrichmentField (nodeType : string) : option string :=
  if String.eqb nodeType "perplexity-research" then Some "research_data"
  else if String.eqb nodeType "multi-source-synthesizer" then Some "synthesized_content"
  else if String.eqb nodeType "ai-processor" then Some "ai_content"
  else if String.eqb nodeType "publisher" then Some "published_article"
  else None.

(** A computation that leaves the world as it found it. *)
Definition silent {A} (c : Eff A) : Prop := ∀ w, snd (c w) = w.

(** A computation that either leaves the world as it is or sends exactly one
    request to the function [name]; and when the answer to that request
    carries an error, throws this error. *)
Definition remote (env : Env) (name : string) {A} (c : Eff A) : Prop :=
  ∀ w, snd (c w) = w ∨
       ∃ body, snd (c w) = logCall name body w ∧
               (truthy (snd (invokeResponse env w name body)) = true →
                fst (c w) = Throw (JsThrown (snd (invokeResponse env w name body)))).

(** A node list in which two nodes share the id [a]. *)
Definition duplicateNodes : list WorkflowNode :=
  [mkNode "a" "filter" "First" (JObj []) ["b"];
   mkNode "a" "publisher" "Second" (JObj []) [];
   mkNode "b" "trigger" "Start" (JObj []) ["ghost"]].

Definition rssNode : WorkflowNode := mkNode "r" "rss-aggregator" "Feeds" (JObj []) [].

(** The sample collaborators with a store that refuses the insert. *)
Definition refusingEnv : Env :=
  mkEnv (fun _ _ _ => (JNull, JObj [("message", JStr "permission denied")]))
        (invokeResponse sampleEnv) (currentTime sampleEnv) (toISOString sampleEnv)
        (randomUUID sampleEnv) (dateParse sampleEnv) (stringToNumber sampleEnv).

(** Collaborators whose functions all answer [response], without error. *)
Definition answeringEnv (response : JsVal) : Env :=
  mkEnv (insertResponse sampleEnv)
        (fun _ _ _ => (response, JNull))
        (currentTime sampleEnv) (toISOString sampleEnv)
        (randomUUID sampleEnv) (dateParse sampleEnv) (stringToNumber sampleEnv).

Definition feedResponse : JsVal :=
  JObj [("items", JArr [JObj [("title", JStr "Clinic opens"); ("source_type", JStr "blog")];
                        JStr "ab"])].

Definition papersResponse (papers : list JsVal) : JsVal := JObj [("papers", JArr papers)].

Definition samplePaper : JsVal :=
  JObj [("title", JStr "Dental imaging with transformers");
        ("abstract", JStr "We study...");
        ("authors", JStr "A. Author")].

Definition scholarNode : WorkflowNode :=
  mkNode "s" "google-scholar-search" "Papers" (JObj [("query", JStr "dental AI")]) [].

(** An academic search that finds one paper and one broken entry. *)
Definition brokenPapersEnv : Env := answeringEnv (papersResponse [samplePaper; JNull]).

Definition researchNode : WorkflowNode :=
  mkNode "x" "perplexity-research" "Research" (JObj []) [].

Definition autoPublisherNode : WorkflowNode :=
  mkNode "p" "publisher" "Publish" (JObj [("autoPublish", JBool true)]) [].

(** A node type whose handler is the identity: [trigger], or a type that
    [executeNode] does not know. *)
Definition isPassThrough (nodeType : string) : bool :=
  String.eqb nodeType "trigger" ||
  negb (existsb (String.eqb nodeType)
          ["news-discovery"; "rss-aggregator"; "google-scholar-search";
           "perplexity-research"; "multi-source-synthesizer"; "ai-processor";
           "filter"; "publisher"]).

Definition isArray (v : JsVal) : bool :=
  match v with JArr _ => true | _ => false end.

Definition bareFilterNode : WorkflowNode := mkNode "f" "filter" "No rules" (JObj []) [].

Definition sinceRule : JsVal :=
  JObj [("type", JStr "date"); ("operator", JStr "since"); ("value", JNum 1700000000000)].

Definition keywordRule (value : string) : JsVal :=
  JObj [("type", JStr "keyword"); ("value", JStr value)].

(** The word for school in French, in capitals (ÉCOLE) and in small letters
    (école); the first letter has the code units 201 and 233. *)
Definition capitalSchool : string := String (ascii_of_nat 201) "COLE".
Definition smallSchool : string := String (ascii_of_nat 233) "cole".

Definition webhookNode : WorkflowNode := mkNode "h" "webhook" "Unknown" JNull [].

(** A trigger followed by a node of a type the engine does not know. *)
Definition relayNodes : list WorkflowNode :=
  [mkNode "t" "trigger" "Start" (JObj []) ["h"]; webhookNode].

(** A computation that sends nothing to the store. *)
Definition keepsStore {A} (c : Eff A) : Prop :=
  ∀ w, storeOps (snd (c w)) = storeOps w.

(** * Properties *)

(** ** Worked examples *)

Example toStringJs_nested :
  toStringJs (JArr [JNum 1; JNull; JArr [JStr "a"; JUndefined]; JObj []])
  = "1,,a,,[object Object]".
Proof. reflexivity. Qed.

Example toStringJs_numbers :
  map (fun n => toStringJs (JNum n))
      [0; -5; 1700000000000; 2 ^ 53; 2 ^ 64; 10 ^ 21 - 1; 10 ^ 21; 2 ^ 70; -(10 ^ 23)]%Z
  = ["0"; "-5"; "1700000000000"; "9007199254740992"; "18446744073709552000";
     "1e+21"; "1e+21"; "1.1805916207174113e+21"; "-1e+23"].
Proof. by vm_compute. Qed.

Example toLowerCase_accents :
  toLowerCase capitalSchool = smallSchool ∧
  toLowerCase (String (ascii_of_nat 215) "") = String (ascii_of_nat 215) "".
Proof. split; reflexivity. Qed.

Example readProp_array :
  (readProp (JArr [JNum 4]) "length", readProp (JArr [JNum 4]) "0",
   readProp (JArr [JNum 4]) "title")
  = (JNum 1, JNum 4, JUndefined).
Proof. reflexivity. Qed.

Example includes_lowercased :
  includes (toLowerCase "Product LAUNCH today") (toLowerCase "Launch") = true.
Proof. reflexivity. Qed.

Example sort_pipeline :
  topologicalSort pipelineNodes
  = Sorted [publisherNode; filterNode; discoveryNode; triggerNode].
Proof. by vm_compute. Qed.

Example sort_loop : topologicalSort loopNodes = CircularDependency.
Proof. by vm_compute. Qed.

Example filter_keeps_launch :
  fst (executeFilterNode sampleEnv filterNode launchContext emptyWorld)
  = Normal (JObj [("title", JStr "Product launch today")]).
Proof. reflexivity. Qed.

Example filter_drops_weather :
  fst (executeFilterNode sampleEnv filterNode weatherContext emptyWorld) = Normal JNull.
Proof. reflexivity. Qed.

Example filter_throws_on_null_payload :
  fst (executeFilterNode sampleEnv filterNode brokenContext emptyWorld)
  = Throw (JsError true "Cannot read properties of null or undefined").
Proof. reflexivity. Qed.

(** ** Graph orderer *)

Section Orderer.
Variable nodes : list WorkflowNode.

Lemma lookupNode_Some i n : lookupNode nodes i = Some n → In n nodes ∧ id n = i.
Proof.
  unfold lookupNode. intros H. apply find_some in H as [Hin Heq].
  split; [done|]. by apply String.eqb_eq.
Qed.

Lemma lookupNode_None i n : lookupNode nodes i = None → In n nodes → id n ≠ i.
Proof.
  unfold lookupNode. intros H Hin Heq.
  apply (find_none _ _ H) in Hin. apply String.eqb_neq in Hin. done.
Qed.

Lemma snoc_split {A} (l l1 l2 : list A) (a u : A) :
  l ++ [a] = l1 ++ u :: l2 →
  (l2 = [] ∧ u = a ∧ l1 = l) ∨ (∃ l2', l2 = l2' ++ [a] ∧ l = l1 ++ u :: l2').
Proof.
  intros H. destruct l2 as [|y l2 _] using rev_ind.
  - left. apply (app_inj_tail l l1 a u) in H as [-> ->]. done.
  - right. exists l2.
    rewrite app_comm_cons, app_assoc in H.
    by apply app_inj_tail in H as [-> ->].
Qed.

Lemma SortInv_empty : SortInv nodes emptySort.
Proof.
  split; simpl.
  - intros i. split; [set_solver|]. by intros (n & [] & _).
  - constructor.
  - by intros n [].
  - intros [|] ? ? ? ? ?; discriminate.
  - set_solver.
Qed.

Lemma VisitPost_refl st : SortInv nodes st → VisitPost nodes [] st st.
Proof.
  intros Hinv. split; [done|]. split; [done|]. split.
  - exists []. rewrite app_nil_r. split; [done|]. by intros n [].
  - by intros c nc [].
Qed.

Lemma VisitPost_trans r1 r2 st st1 st2 :
  VisitPost nodes r1 st st1 → VisitPost nodes r2 st1 st2 →
  VisitPost nodes (r1 ++ r2) st st2.
Proof.
  intros (_ & Hv1 & (e1 & He1 & Hr1) & Hc1) (Hinv2 & Hv2 & (e2 & He2 & Hr2) & Hc2).
  split; [done|]. split; [congruence|]. split.
  - exists (e1 ++ e2). split; [rewrite He2, He1; by rewrite app_assoc|].
    intros n [Hn|Hn]%in_app_or.
    + destruct (Hr1 n Hn) as (c & Hc & Hrt). exists c. split; [apply in_or_app; by left|done].
    + destruct (Hr2 n Hn) as (c & Hc & Hrt). exists c. split; [apply in_or_app; by right|done].
  - intros c nc [Hc|Hc]%in_app_or Hl.
    + rewrite He2. apply in_or_app. left. by eapply Hc1.
    + by eapply Hc2.
Qed.

Lemma VisitPost_visited c st :
  SortInv nodes st → c ∈ visited st → VisitPost nodes [c] st st.
Proof.
  intros Hinv Hc. split; [done|]. split; [done|]. split.
  - exists []. rewrite app_nil_r. split; [done|]. by intros n [].
  - intros c' nc [<-|[]] Hl.
    apply (inv_visited _ _ Hinv) in Hc as (n & Hn & Hid).
    pose proof (inv_lookup _ _ Hinv n Hn) as Hl'. rewrite Hid in Hl'. congruence.
Qed.

Lemma forEach_post {A} (key : A → string) body (l : list A) :
  (∀ x st st', In x l → SortInv nodes st → body x st = Sorted st' →
               VisitPost nodes [key x] st st') →
  ∀ st st', SortInv nodes st → forEach body l st = Sorted st' →
            VisitPost nodes (map key l) st st'.
Proof.
  induction l as [|x l IH]; intros Hbody st st' Hinv Hrun; simpl in *.
  - injection Hrun as <-. by apply VisitPost_refl.
  - destruct (body x st) as [st1| |] eqn:Hx; try discriminate.
    pose proof (Hbody x st st1 (or_introl eq_refl) Hinv Hx) as Hp1.
    change (key x :: map key l) with ([key x] ++ map key l).
    eapply VisitPost_trans; [exact Hp1|].
    apply IH; [|by destruct Hp1|done].
    intros y s s' Hy. apply Hbody. by right.
Qed.

Lemma visit_post fuel : ∀ c st st',
  SortInv nodes st → visit fuel nodes c st = Sorted st' → VisitPost nodes [c] st st'.
Proof.
  induction fuel as [|fuel IH]; intros c st st' Hinv Hrun; simpl in Hrun; [discriminate|].
  destruct (decide (c ∈ visiting st)) as [|Hnving]; [discriminate|].
  destruct (decide (c ∈ visited st)) as [Hved|Hnved].
  { injection Hrun as <-. by apply VisitPost_visited. }
  destruct (lookupNode nodes c) as [node|] eqn:Hlook.
  - set (st1 := mkSortState (sorted st) (visited st) ({[c]} ∪ visiting st)) in *.
    destruct (forEach (visit fuel nodes) (connected node) st1) as [st2| |] eqn:Hloop;
      try discriminate.
    injection Hrun as <-.
    assert (Hinv1 : SortInv nodes st1).
    { destruct Hinv. split; simpl; try done. intros i Hi. set_solver. }
    pose proof (forEach_post (λ x, x) (visit fuel nodes) (connected node)
                  (λ x s s' _ Hs Hr, IH x s s' Hs Hr) st1 st2 Hinv1 Hloop) as Hp.
    rewrite map_id in Hp.
    destruct Hp as (Hinv2 & Hving2 & (ext & Hext & Hreach) & Hsucc).
    simpl in Hving2, Hext.
    destruct (lookupNode_Some _ _ Hlook) as [Hnin Hnid].
    assert (Hc2 : c ∉ visited st2).
    { apply (inv_disjoint _ _ Hinv2). rewrite Hving2. set_solver. }
    split; [|split; [|split]]; simpl.
    + split; simpl.
      * intros i. rewrite elem_of_union, elem_of_singleton, (inv_visited _ _ Hinv2). split.
        -- intros [->|(n & Hn & Hi)].
           ++ exists node. split; [apply in_or_app; right; by left|done].
           ++ exists n. split; [apply in_or_app; by left|done].
        -- intros (n & [Hn|[<-|[]]]%in_app_or & Hi); [right; by exists n|left; congruence].
      * rewrite map_app. simpl. apply NoDup_app. split; [apply (inv_nodup _ _ Hinv2)|].
        split; [|apply NoDup_singleton].
        intros i Hi [<-|[]]%list_elem_of_In. apply Hc2.
        apply (inv_visited _ _ Hinv2). apply list_elem_of_In, in_map_iff in Hi as (n & Hi & Hn).
        exists n. split; [done|congruence].
      * intros n [Hn|[<-|[]]]%in_app_or; [by apply (inv_lookup _ _ Hinv2)|congruence].
      * intros l1 u l2 v nv Hsplit Hv Hlv.
        apply snoc_split in Hsplit as [(-> & -> & ->)|(l2' & -> & Hsplit)].
        -- by eapply Hsucc.
        -- by eapply (inv_order _ _ Hinv2).
      * intros i Hi. rewrite elem_of_union, elem_of_singleton.
        intros [->|Hi']; [set_solver|]. eapply (inv_disjoint _ _ Hinv2); [|done]. set_solver.
    + rewrite Hving2. set_solver.
    + exists (ext ++ [node]). split; [rewrite Hext; by rewrite app_assoc|].
      intros n [Hn|[<-|[]]]%in_app_or.
      * destruct (Hreach n Hn) as (d & Hd & Hrt). exists c. split; [by left|].
        eapply rtc_l; [|done]. by exists node.
      * exists c. split; [by left|]. rewrite Hnid. done.
    + intros c' nc [<-|[]] Hl. apply in_or_app. right. left. congruence.
  - injection Hrun as <-. simpl.
    split; [|split; [|split]]; simpl.
    + destruct Hinv. split; simpl; try done. intros i Hi. apply inv_disjoint0. set_solver.
    + set_solver.
    + exists []. rewrite app_nil_r. split; [done|]. by intros n [].
    + intros c' nc [<-|[]] Hl. congruence.
Qed.

(** *** [visiting] is a stack: a normal return restores it *)

Lemma forEach_visiting {A} (body : A → SortState → SortResult SortState) (l : list A) :
  (∀ x st st', In x l → body x st = Sorted st' → visiting st' = visiting st) →
  ∀ st st', forEach body l st = Sorted st' → visiting st' = visiting st.
Proof.
  induction l as [|x l IH]; intros Hbody st st' Hrun; simpl in Hrun.
  - by injection Hrun as <-.
  - destruct (body x st) as [st1| |] eqn:Hx; try discriminate.
    rewrite (IH (λ y s s' Hy, Hbody y s s' (or_intror Hy)) st1 st' Hrun).
    apply (Hbody x); [by left|done].
Qed.

Lemma visit_visiting fuel : ∀ c st st',
  visit fuel nodes c st = Sorted st' → visiting st' = visiting st.
Proof.
  induction fuel as [|fuel IH]; intros c st st' Hrun; simpl in Hrun; [discriminate|].
  destruct (decide (c ∈ visiting st)) as [|Hnving]; [discriminate|].
  destruct (decide (c ∈ visited st)); [by injection Hrun as <-|].
  destruct (lookupNode nodes c) as [node|].
  - destruct (forEach _ _ _) as [st2| |] eqn:Hloop; try discriminate.
    injection Hrun as <-. simpl.
    apply forEach_visiting in Hloop; [|intros x s s' _; apply IH].
    rewrite Hloop. simpl. set_solver.
  - injection Hrun as <-. simpl. set_solver.
Qed.

(** *** No cycle, no throw *)

Lemma forEach_no_cycle {A} (body : A → SortState → SortResult SortState) (l : list A)
    (V : gset string) :
  (∀ x st, In x l → visiting st = V → body x st ≠ CircularDependency) →
  (∀ x st st', In x l → body x st = Sorted st' → visiting st' = visiting st) →
  ∀ st, visiting st = V → forEach body l st ≠ CircularDependency.
Proof.
  induction l as [|x l IH]; intros Hbody Hkeep st HV; simpl; [done|].
  destruct (body x st) as [st1| |] eqn:Hx; [| |done].
  - apply IH.
    + intros y s Hy. apply Hbody. by right.
    + intros y s s' Hy. apply Hkeep. by right.
    + rewrite <- HV. apply (Hkeep x); [by left|done].
  - exfalso. eapply Hbody; [by left|exact HV|exact Hx].
Qed.

Lemma visit_no_cycle fuel : acyclic nodes → ∀ c st,
  (∀ x, x ∈ visiting st → tc (edge nodes) x c) →
  visit fuel nodes c st ≠ CircularDependency.
Proof.
  intros Hacyc. induction fuel as [|fuel IH]; intros c st Hpath; simpl; [done|].
  destruct (decide (c ∈ visiting st)) as [Hving|Hnving].
  { exfalso. apply (Hacyc c). by apply Hpath. }
  destruct (decide (c ∈ visited st)); [done|].
  destruct (lookupNode nodes c) as [node|] eqn:Hlook; [|done].
  destruct (forEach _ _ _) as [st2| |] eqn:Hloop; [done| |done].
  exfalso. revert Hloop.
  apply (forEach_no_cycle _ _ ({[c]} ∪ visiting st)); [| |done].
  - intros d s Hd Hs. apply IH. intros x. rewrite Hs, elem_of_union, elem_of_singleton.
    assert (Hcd : edge nodes c d) by by exists node.
    intros [->|Hx]; [by apply tc_once|]. eapply tc_r; [by apply Hpath|done].
  - intros d s s' _. apply visit_visiting.
Qed.

(** *** The recursion bound is never hit *)

Lemma idSet_size : size (idSet nodes) ≤ length nodes.
Proof.
  unfold idSet. rewrite <- (length_map id nodes).
  induction (map id nodes) as [|a l IH].
  - rewrite list_to_set_nil, size_empty. done.
  - rewrite list_to_set_cons, size_union_alt, size_singleton. simpl.
    pose proof (subseteq_size (list_to_set l ∖ {[a]}) (list_to_set l : gset string)) as Hle.
    assert (list_to_set l ∖ {[a]} ⊆ (list_to_set l : gset string)) by set_solver.
    specialize (Hle H). lia.
Qed.

Lemma lookupNode_idSet c n : lookupNode nodes c = Some n → c ∈ idSet nodes.
Proof.
  intros [Hin <-]%lookupNode_Some. unfold idSet.
  apply elem_of_list_to_set, list_elem_of_In, in_map. done.
Qed.

Lemma forEach_fuel {A} (body : A → SortState → SortResult SortState) (l : list A)
    (V : gset string) :
  (∀ x st, In x l → visiting st = V → body x st ≠ FuelExhausted) →
  (∀ x st st', In x l → body x st = Sorted st' → visiting st' = visiting st) →
  ∀ st, visiting st = V → forEach body l st ≠ FuelExhausted.
Proof.
  induction l as [|x l IH]; intros Hbody Hkeep st HV; simpl; [done|].
  destruct (body x st) as [st1| |] eqn:Hx; [|done|].
  - apply IH.
    + intros y s Hy. apply Hbody. by right.
    + intros y s s' Hy. apply Hkeep. by right.
    + rewrite <- HV. apply (Hkeep x); [by left|done].
  - exfalso. eapply Hbody; [by left|exact HV|exact Hx].
Qed.

Lemma visit_fuel fuel : ∀ c st,
  visiting st ⊆ idSet nodes → size (idSet nodes) < fuel + size (visiting st) →
  visit fuel nodes c st ≠ FuelExhausted.
Proof.
  induction fuel as [|fuel IH]; intros c st Hsub Hsize; simpl.
  { apply subseteq_size in Hsub. lia. }
  destruct (decide (c ∈ visiting st)) as [|Hnving]; [done|].
  destruct (decide (c ∈ visited st)); [done|].
  destruct (lookupNode nodes c) as [node|] eqn:Hlook; [|done].
  destruct (forEach _ _ _) as [st2| |] eqn:Hloop; [done|done|].
  exfalso. revert Hloop.
  apply (forEach_fuel _ _ ({[c]} ∪ visiting st)); [| |done].
  - intros d s Hd Hs. apply IH; rewrite Hs.
    + apply lookupNode_idSet in Hlook. set_solver.
    + rewrite size_union, size_singleton by set_solver. lia.
  - intros d s s' _. apply visit_visiting.
Qed.

(** *** The two loops of [topologicalSort] *)

Lemma forEach_app {A} (body : A → SortState → SortResult SortState) (l l' : list A) st st' :
  forEach body (l ++ l') st = Sorted st' →
  ∃ mid, forEach body l st = Sorted mid ∧ forEach body l' mid = Sorted st'.
Proof.
  revert st. induction l as [|x l IH]; intros st Hrun; simpl in *.
  - by exists st.
  - destruct (body x st) as [st1| |]; try discriminate. by apply IH.
Qed.

Lemma visitTriggers_post fuel st1 :
  visitTriggers fuel nodes = Sorted st1 →
  VisitPost nodes (map id (List.filter isTrigger nodes)) emptySort st1.
Proof.
  apply (forEach_post id); [|apply SortInv_empty].
  intros x st st' _. apply visit_post.
Qed.

Lemma visitRemaining_body_post fuel (x : WorkflowNode) st st' :
  SortInv nodes st →
  (if decide (id x ∈ visited st) then Sorted st else visit fuel nodes (id x) st) = Sorted st' →
  VisitPost nodes [id x] st st'.
Proof.
  intros Hinv. destruct (decide (id x ∈ visited st)).
  - intros [= <-]. by apply VisitPost_visited.
  - by apply visit_post.
Qed.

Lemma visitRemaining_post fuel (l : list WorkflowNode) st st' :
  SortInv nodes st →
  forEach (λ node s, if decide (id node ∈ visited s) then Sorted s
                     else visit fuel nodes (id node) s) l st = Sorted st' →
  VisitPost nodes (map id l) st st'.
Proof.
  apply (forEach_post id). intros x s s' _. apply visitRemaining_body_post.
Qed.

Lemma visitRemaining_body_visiting fuel (x : WorkflowNode) st st' :
  (if decide (id x ∈ visited st) then Sorted st else visit fuel nodes (id x) st) = Sorted st' →
  visiting st' = visiting st.
Proof.
  destruct (decide (id x ∈ visited st)); [by intros [= <-]|apply visit_visiting].
Qed.

Lemma topologicalSort_total : topologicalSort nodes ≠ FuelExhausted.
Proof.
  pose proof idSet_size as Hsz.
  assert (Hv : ∀ c st, visiting st = ∅ → visit (S (length nodes)) nodes c st ≠ FuelExhausted).
  { intros c st Hst. apply visit_fuel; rewrite Hst; [set_solver|].
    rewrite size_empty. lia. }
  unfold topologicalSort.
  destruct (visitTriggers _ _) as [st1| |] eqn:H1; [|done|].
  - destruct (visitRemaining _ _ _) as [st2| |] eqn:H2; [done|done|].
    exfalso. revert H2. apply (forEach_fuel _ _ ∅).
    + intros x s _ Hs. destruct (decide _); [done|by apply Hv].
    + intros x s s' _. apply visitRemaining_body_visiting.
    + apply forEach_visiting in H1; [done|]. intros x s s' _. apply visit_visiting.
  - exfalso. revert H1. apply (forEach_fuel _ _ ∅); [| |done].
    + intros x s _ Hs. by apply Hv.
    + intros x s s' _. apply visit_visiting.
Qed.

Lemma topologicalSort_no_cycle : acyclic nodes → topologicalSort nodes ≠ CircularDependency.
Proof.
  intros Hacyc.
  assert (Hv : ∀ c st, visiting st = ∅ →
                       visit (S (length nodes)) nodes c st ≠ CircularDependency).
  { intros c st Hst. apply visit_no_cycle; [done|]. rewrite Hst. set_solver. }
  unfold topologicalSort.
  destruct (visitTriggers _ _) as [st1| |] eqn:H1; [| |done].
  - destruct (visitRemaining _ _ _) as [st2| |] eqn:H2; [done| |done].
    exfalso. revert H2. apply (forEach_no_cycle _ _ ∅).
    + intros x s _ Hs. destruct (decide _); [done|by apply Hv].
    + intros x s s' _. apply visitRemaining_body_visiting.
    + apply forEach_visiting in H1; [done|]. intros x s s' _. apply visit_visiting.
  - exfalso. revert H1. apply (forEach_no_cycle _ _ ∅); [| |done].
    + intros x s _ Hs. by apply Hv.
    + intros x s s' _. apply visit_visiting.
Qed.

(** *** More fuel changes nothing

    A visit that ends within its bound ends in the same way under any larger
    bound, so the bound of [topologicalSort] is no restriction. *)

Lemma forEach_agree {A} (f g : A → SortState → SortResult SortState) (l : list A) :
  (∀ x st r, In x l → f x st = r → r ≠ FuelExhausted → g x st = r) →
  ∀ st r, forEach f l st = r → r ≠ FuelExhausted → forEach g l st = r.
Proof.
  induction l as [|x l IH]; intros Hfg st r Hrun Hr; simpl in *; [done|].
  destruct (f x st) as [st1| |] eqn:Hf.
  - rewrite (Hfg x st (Sorted st1)); [|by left|done|done].
    apply IH; [|done|done]. intros y s r' Hy. apply Hfg. by right.
  - rewrite (Hfg x st CircularDependency); [done|by left|done|done].
  - congruence.
Qed.

Lemma visit_fuel_mono fuel : ∀ fuel' c st r,
  fuel ≤ fuel' → visit fuel nodes c st = r → r ≠ FuelExhausted →
  visit fuel' nodes c st = r.
Proof.
  induction fuel as [|fuel IH]; intros fuel' c st r Hle Hrun Hr; simpl in Hrun; [congruence|].
  destruct fuel' as [|fuel']; [lia|]. simpl.
  assert (Hle' : fuel ≤ fuel') by lia.
  destruct (decide (c ∈ visiting st)); [done|].
  destruct (decide (c ∈ visited st)); [done|].
  destruct (lookupNode nodes c) as [node|]; [|done].
  destruct (forEach (visit fuel nodes) _ _) as [st2| |] eqn:Hloop.
  - rewrite (forEach_agree (visit fuel nodes) (visit fuel' nodes) _
               (λ x s r' _ Hx Hr', IH fuel' x s r' Hle' Hx Hr') _ _ Hloop); done.
  - rewrite (forEach_agree (visit fuel nodes) (visit fuel' nodes) _
               (λ x s r' _ Hx Hr', IH fuel' x s r' Hle' Hx Hr') _ _ Hloop); done.
  - congruence.
Qed.

Lemma visitTriggers_fuel_mono fuel fuel' r :
  fuel ≤ fuel' → visitTriggers fuel nodes = r → r ≠ FuelExhausted →
  visitTriggers fuel' nodes = r.
Proof.
  intros Hle. unfold visitTriggers. apply forEach_agree.
  intros x s r' _. by apply visit_fuel_mono.
Qed.

Lemma visitRemaining_fuel_mono fuel fuel' st r :
  fuel ≤ fuel' → visitRemaining fuel nodes st = r → r ≠ FuelExhausted →
  visitRemaining fuel' nodes st = r.
Proof.
  intros Hle. unfold visitRemaining. apply forEach_agree.
  intros x s r' _. destruct (decide (id x ∈ visited s)); [done|].
  by apply visit_fuel_mono.
Qed.

(** The sort under any bound of at least [length nodes + 1]. *)
Lemma topologicalSort_fuel_irrelevant fuel :
  length nodes < fuel →
  match visitTriggers fuel nodes with
  | Sorted st1 =>
      match visitRemaining fuel nodes st1 with
      | Sorted st2 => Sorted (sorted st2)
      | CircularDependency => CircularDependency
      | FuelExhausted => FuelExhausted
      end
  | CircularDependency => CircularDependency
  | FuelExhausted => FuelExhausted
  end = topologicalSort nodes.
Proof.
  intros Hfuel. pose proof topologicalSort_total as Htotal. unfold topologicalSort in *.
  assert (Hle : S (length nodes) ≤ fuel) by lia.
  destruct (visitTriggers (S (length nodes)) nodes) as [st1| |] eqn:H1; [| |done].
  - rewrite (visitTriggers_fuel_mono _ fuel _ Hle H1) by done.
    destruct (visitRemaining (S (length nodes)) nodes st1) as [st2| |] eqn:H2; [| |done].
    + by rewrite (visitRemaining_fuel_mono _ fuel _ _ Hle H2).
    + by rewrite (visitRemaining_fuel_mono _ fuel _ _ Hle H2).
  - by rewrite (visitTriggers_fuel_mono _ fuel _ Hle H1).
Qed.

(** A normal return decomposes into the two passes. *)
Lemma topologicalSort_Sorted out :
  topologicalSort nodes = Sorted out →
  ∃ st1 st2,
    visitTriggers (S (length nodes)) nodes = Sorted st1 ∧
    visitRemaining (S (length nodes)) nodes st1 = Sorted st2 ∧
    out = sorted st2 ∧
    VisitPost nodes (map id (List.filter isTrigger nodes)) emptySort st1 ∧
    VisitPost nodes (map id nodes) st1 st2.
Proof.
  unfold topologicalSort.
  destruct (visitTriggers _ _) as [st1| |] eqn:H1; try discriminate.
  destruct (visitRemaining _ _ _) as [st2| |] eqn:H2; try discriminate.
  intros [= <-]. exists st1, st2.
  pose proof (visitTriggers_post _ _ H1) as Hp1.
  do 4 (split; [done|]).
  eapply visitRemaining_post; [by destruct Hp1|exact H2].
Qed.

(** *** Consequences of the invariant *)

Lemma tc_edge_lookup a b : tc (edge nodes) a b → ∃ na, lookupNode nodes a = Some na.
Proof. intros [x y (n & Hn & _)|x y z (n & Hn & _) _]; by exists n. Qed.

(** Along a path, positions in [sorted] strictly decrease. *)
Lemma sorted_path_earlier st a b :
  SortInv nodes st → tc (edge nodes) a b →
  ∀ na nb l1 l2, lookupNode nodes a = Some na → lookupNode nodes b = Some nb →
    sorted st = l1 ++ na :: l2 → In nb l1.
Proof.
  intros Hinv Hab. induction Hab as [a b (n & Hn & Hb)|a m b (n & Hn & Hm) Hmb IH];
    intros na nb l1 l2 Ha Hlb Hsplit.
  - assert (n = na) as -> by congruence. by eapply (inv_order _ _ Hinv).
  - assert (n = na) as -> by congruence.
    destruct (tc_edge_lookup _ _ Hmb) as [nm Hlm].
    pose proof (inv_order _ _ Hinv _ _ _ _ _ Hsplit Hm Hlm) as Hnm.
    apply in_split in Hnm as (l1' & l2' & ->).
    apply in_or_app. left. apply (IH nm nb l1' (l2' ++ na :: l2) Hlm Hlb).
    rewrite Hsplit. by rewrite <- app_assoc.
Qed.

Lemma NoDup_map_In {A B} (f : A → B) (l1 l2 : list A) (x : A) :
  NoDup (map f (l1 ++ x :: l2)) → ¬ In x l1.
Proof.
  rewrite map_app. simpl. intros Hnd Hin.
  apply NoDup_app in Hnd as (_ & Hnd & _).
  apply (Hnd (f x)); [apply list_elem_of_In, in_map, Hin|left].
Qed.

(** A sort that returns has visited an acyclic graph. *)
Lemma sorted_all_acyclic st :
  SortInv nodes st →
  (∀ c nc, lookupNode nodes c = Some nc → In nc (sorted st)) →
  acyclic nodes.
Proof.
  intros Hinv Hall c Hcyc.
  destruct (tc_edge_lookup _ _ Hcyc) as [nc Hlc].
  destruct (in_split _ _ (Hall _ _ Hlc)) as (l1 & l2 & Hsplit).
  pose proof (sorted_path_earlier _ _ _ Hinv Hcyc _ _ _ _ Hlc Hlc Hsplit) as Hin.
  pose proof (inv_nodup _ _ Hinv) as Hnd. rewrite Hsplit in Hnd.
  by apply NoDup_map_In in Hnd.
Qed.

(** [sorted] is closed under the edges that resolve. *)
Lemma sorted_closed st a b :
  SortInv nodes st → rtc (edge nodes) a b →
  ∀ na nb, lookupNode nodes a = Some na → In na (sorted st) →
           lookupNode nodes b = Some nb → In nb (sorted st).
Proof.
  intros Hinv Hab. induction Hab as [a|a m b (n & Hn & Hm) Hmb IH]; intros na nb Ha Hina Hb.
  - congruence.
  - assert (n = na) as -> by congruence.
    destruct (lookupNode nodes m) as [nm|] eqn:Hlm.
    + apply (IH nm nb); [done| |done].
      destruct (in_split _ _ Hina) as (l1 & l2 & Hsplit).
      rewrite Hsplit. apply in_or_app. left. by eapply (inv_order _ _ Hinv).
    + apply rtc_inv in Hmb as [->|(y & (n' & Hn' & _) & _)]; congruence.
Qed.

Lemma Sorted_acyclic out : topologicalSort nodes = Sorted out → acyclic nodes.
Proof.
  intros Hrun.
  apply topologicalSort_Sorted in Hrun as (st1 & st2 & _ & _ & _ & _ & Hp2).
  destruct Hp2 as (Hinv & _ & _ & Hall).
  apply (sorted_all_acyclic st2 Hinv). intros c nc Hl. apply (Hall c nc); [|done].
  apply lookupNode_Some in Hl as [Hin <-]. by apply in_map.
Qed.

Lemma cycle_throws : ¬ acyclic nodes → topologicalSort nodes = CircularDependency.
Proof.
  intros Hcyc. destruct (topologicalSort nodes) as [out| |] eqn:Hrun; [|done|].
  - exfalso. by apply Hcyc, (Sorted_acyclic out).
  - by apply topologicalSort_total in Hrun.
Qed.

(** *** Node lists with pairwise different ids *)

Lemma NoDup_map_inj_In {A B} (f : A → B) (l : list A) (x y : A) :
  NoDup (map f l) → In x l → In y l → f x = f y → x = y.
Proof.
  induction l as [|a l IH]; simpl; [done|].
  rewrite NoDup_cons. intros [Ha Hnd] [->|Hx] [->|Hy] Hf; try done.
  - exfalso. apply Ha. rewrite Hf. by apply list_elem_of_In, in_map.
  - exfalso. apply Ha. rewrite <- Hf. by apply list_elem_of_In, in_map.
  - by apply IH.
Qed.

Lemma NoDup_map_NoDup {A B} (f : A → B) (l : list A) : NoDup (map f l) → NoDup l.
Proof.
  induction l as [|a l IH]; simpl; [constructor|].
  rewrite !NoDup_cons. intros [Ha Hnd]. split; [|by apply IH].
  intros Hin. apply Ha. by apply list_elem_of_In, in_map, list_elem_of_In.
Qed.

Lemma NoDup_split_unique {A} (l a1 a2 b1 b2 : list A) (x : A) :
  NoDup l → l = a1 ++ x :: a2 → l = b1 ++ x :: b2 → a1 = b1.
Proof.
  intros Hnd Hl. subst l. revert b1 Hnd. induction a1 as [|y a1 IH]; intros [|z b1] Hnd Heq; simpl in *.
  - done.
  - injection Heq as -> ->. apply NoDup_cons in Hnd as [Hz _].
    exfalso. apply Hz, list_elem_of_In, in_or_app. right. by left.
  - injection Heq as -> _. apply NoDup_cons in Hnd as [Hz _].
    exfalso. apply Hz, list_elem_of_In, in_or_app. right. by left.
  - injection Heq as -> Heq. f_equal. apply NoDup_cons in Hnd as [_ Hnd]. by apply IH.
Qed.

Lemma lookupNode_NoDup n :
  NoDup (map id nodes) → In n nodes → lookupNode nodes (id n) = Some n.
Proof.
  intros Hnd Hin. destruct (lookupNode nodes (id n)) as [n'|] eqn:Hl.
  - apply lookupNode_Some in Hl as [Hin' Hid]. f_equal.
    by apply (NoDup_map_inj_In id nodes).
  - by destruct (lookupNode_None _ _ Hl Hin).
Qed.

(** For pairwise different ids, [edge] is the plain edge relation of the list. *)
Lemma edge_In u v :
  NoDup (map id nodes) →
  edge nodes u v ↔ ∃ n, In n nodes ∧ id n = u ∧ In v (connected n).
Proof.
  intros Hnd. split.
  - intros (n & [Hin Hid]%lookupNode_Some & Hv). by exists n.
  - intros (n & Hin & <- & Hv). exists n. split; [by apply lookupNode_NoDup|done].
Qed.

(** ** C1 *)

(** C1. For an acyclic node list with pairwise different ids,
    [topologicalSort] returns a list [pre ++ post] that holds every input
    node exactly once (it is a permutation of the input); for every node [u]
    and every id in [u.connected] that names an input node [nv], [nv] stands
    strictly before [u] in the output.  [pre], the outcome of the first loop,
    holds exactly the nodes reachable from a trigger node; [post] holds the
    others, visited in input order: whatever is emitted in [post] before a
    node [a] was reached from an input node standing at or before [a]. *)
Theorem topologicalSort_acyclic_order :
  NoDup (map id nodes) → acyclic nodes →
  ∃ pre post,
    topologicalSort nodes = Sorted (pre ++ post) ∧
    Permutation (pre ++ post) nodes ∧
    (∀ u nv, In u nodes → In nv nodes → In (id nv) (connected u) →
             Before nv u (pre ++ post)) ∧
    (∀ n, In n pre ↔ In n nodes ∧ fromTrigger nodes n) ∧
    (∀ a b, In a post → In b post → Before b a (pre ++ post) →
            ∃ r, AtOrBefore r a nodes ∧ rtc (edge nodes) (id r) (id b)).
Proof.
  intros Hnd Hacyc.
  destruct (topologicalSort nodes) as [out| |] eqn:Hrun;
    [|by apply topologicalSort_no_cycle in Hrun|by apply topologicalSort_total in Hrun].
  apply topologicalSort_Sorted in Hrun as (st1 & st2 & _ & Hrem & -> & Hp1 & Hp2).
  destruct Hp1 as (Hinv1 & _ & (pre & Hpre & Hreach1) & Hall1). simpl in Hpre.
  pose proof Hp2 as (Hinv2 & _ & (post & Hpost & Hreach2) & Hall2).
  rewrite Hpre in Hpost. rewrite Hpost. exists pre, post.
  assert (Hndout : NoDup (pre ++ post)).
  { rewrite <- Hpost. eapply NoDup_map_NoDup, (inv_nodup _ _ Hinv2). }
  assert (Hin_out : ∀ n, In n (pre ++ post) ↔ In n nodes).
  { intros n. rewrite <- Hpost. split.
    - intros Hn. by apply (inv_lookup _ _ Hinv2), lookupNode_Some in Hn as [? _].
    - intros Hn. apply (Hall2 (id n)); [by apply in_map|by apply lookupNode_NoDup]. }
  split; [done|]. split; [|split; [|split]].
  - apply NoDup_Permutation; [done|by eapply NoDup_map_NoDup|].
    intros n. rewrite !list_elem_of_In. apply Hin_out.
  - intros u nv Hu Hnv Hedge.
    apply Hin_out, in_split in Hu as (l1 & l2 & Hsplit).
    assert (Hin1 : In nv l1).
    { eapply (inv_order _ _ Hinv2); [by rewrite Hpost|exact Hedge|by apply lookupNode_NoDup]. }
    apply in_split in Hin1 as (l1' & l2' & ->).
    exists l1', l2', l2. rewrite Hsplit. by rewrite <- app_assoc.
  - intros n. rewrite <- Hpre. split.
    + intros Hn. split.
      * by apply (inv_lookup _ _ Hinv1), lookupNode_Some in Hn as [? _].
      * rewrite Hpre in Hn. destruct (Hreach1 n Hn) as (c & Hc & Hrt).
        apply in_map_iff in Hc as (t & <- & [Ht Htrig]%filter_In). by exists t.
    + intros [Hn (t & Ht & Htrig & Hrt)].
      apply (sorted_closed st1 (id t) (id n) Hinv1 Hrt t n); try by apply lookupNode_NoDup.
      apply (Hall1 (id t)); [|by apply lookupNode_NoDup].
      apply in_map, filter_In. done.
  - intros a b Ha Hb (x1 & x2 & x3 & Hbefore).
    assert (Hain : In a nodes) by (apply Hin_out, in_or_app; by right).
    destruct (in_split _ _ Hain) as (l1 & l2 & Hnodes).
    unfold visitRemaining in Hrem.
    set (body := λ node s, if decide (id node ∈ visited s) then Sorted s
                           else visit (S (length nodes)) nodes (id node) s) in Hrem.
    rewrite Hnodes in Hrem.
    change (a :: l2) with ([a] ++ l2) in Hrem. rewrite app_assoc in Hrem.
    apply forEach_app in Hrem as (sa & Hrun_a & Hrun_rest). subst body.
    apply visitRemaining_post in Hrun_a as (Hinva & _ & (exta & Hexta & Hreacha) & Halla);
      [|done].
    apply visitRemaining_post in Hrun_rest as (_ & _ & (ext2 & Hext2 & _) & _); [|done].
    assert (Ha_sa : In a (sorted sa)).
    { apply (Halla (id a)); [|by apply lookupNode_NoDup].
      apply in_map, in_or_app. right. by left. }
    destruct (in_split _ _ Ha_sa) as (y1 & y2 & Hsa).
    assert (Hy1 : y1 = x1 ++ b :: x2).
    { apply (NoDup_split_unique (pre ++ post) y1 (y2 ++ ext2) _ x3 a Hndout).
      - rewrite <- Hpost, Hext2, Hsa. by rewrite <- app_assoc.
      - rewrite Hbefore. by rewrite <- app_assoc. }
    assert (Hb_sa : In b (sorted st1 ++ exta)).
    { rewrite <- Hexta, Hsa, Hy1. apply in_or_app. left. apply in_or_app. right. by left. }
    apply in_app_or in Hb_sa as [Hb1|Hb2].
    + exfalso. rewrite Hpre in Hb1.
      apply in_split in Hb1 as (p1 & p2 & ->).
      rewrite <- app_assoc in Hndout. simpl in Hndout.
      apply NoDup_app in Hndout as (_ & _ & Hndout). apply NoDup_cons in Hndout as [Hnb _].
      apply Hnb, list_elem_of_In, in_or_app. by right.
    + destruct (Hreacha b Hb2) as (c & Hc & Hrt).
      apply in_map_iff in Hc as (r & <- & Hr).
      exists r. split; [|done]. exists l1, l2. done.
Qed.

End Orderer.


(** ** Engine: what touches the execution-record store *)

Lemma keepsStore_ret {A} (a : A) : keepsStore (ret a).
Proof. by intros w. Qed.

Lemma keepsStore_throw {A} (e : Exn) : keepsStore (@throw A e).
Proof. by intros w. Qed.

Lemma keepsStore_bind {A B} (c : Eff A) (k : A → Eff B) :
  keepsStore c → (∀ a, keepsStore (k a)) → keepsStore (bind c k).
Proof.
  intros Hc Hk w. unfold bind. specialize (Hc w).
  destruct (c w) as [[a|e] w1]; simpl in *; [|done].
  by rewrite Hk.
Qed.

Lemma keepsStore_tryCatch {A} (c : Eff A) (h : Exn → Eff A) :
  keepsStore c → (∀ e, keepsStore (h e)) → keepsStore (tryCatch c h).
Proof.
  intros Hc Hh w. unfold tryCatch. specialize (Hc w).
  destruct (c w) as [[a|e] w1]; simpl in *; [done|].
  by rewrite Hh.
Qed.

Lemma keepsStore_getProp v key : keepsStore (getProp v key).
Proof. intros w. unfold getProp. by destruct (isNullish v). Qed.

Lemma keepsStore_invoke env name body : keepsStore (invoke env name body).
Proof. by intros w. Qed.

Lemma keepsStore_nowISO env : keepsStore (nowISO env).
Proof. by intros w. Qed.

Lemma keepsStore_nowTime env : keepsStore (nowTime env).
Proof. by intros w. Qed.

Lemma keepsStore_noteCreated cs : keepsStore (noteCreated cs).
Proof. by intros w. Qed.

Lemma keepsStore_throwIfError error : keepsStore (throwIfError error).
Proof. intros w. unfold throwIfError. by destruct (truthy error). Qed.

Lemma keepsStore_mapEff {A B} (f : A → Eff B) (l : list A) :
  (∀ x, keepsStore (f x)) → keepsStore (mapEff f l).
Proof.
  intros Hf. induction l as [|x l IH]; simpl; [apply keepsStore_ret|].
  apply keepsStore_bind; [done|]. intros y.
  apply keepsStore_bind; [done|]. intros ys. apply keepsStore_ret.
Qed.

Lemma keepsStore_arrayMap v f :
  (∀ x, keepsStore (f x)) → keepsStore (arrayMap v f).
Proof.
  intros Hf. destruct v; try apply keepsStore_throw. simpl.
  apply keepsStore_bind; [by apply keepsStore_mapEff|]. intros ys. apply keepsStore_ret.
Qed.

(** Decomposes a handler into its steps. *)
Ltac keeps_store :=
  repeat first
    [ apply keepsStore_ret
    | apply keepsStore_throw
    | apply keepsStore_getProp
    | apply keepsStore_invoke
    | apply keepsStore_nowISO
    | apply keepsStore_nowTime
    | apply keepsStore_noteCreated
    | apply keepsStore_throwIfError
    | apply keepsStore_bind; [|intros ?]
    | apply keepsStore_arrayMap; intros ?
    | match goal with
      | |- keepsStore (match ?x with _ => _ end) => destruct x
      | |- keepsStore (typeError _) => apply keepsStore_throw
      | |- keepsStore (orElseM ?a _) => unfold orElseM
      end ].

Lemma keepsStore_lowerIncludes text filter : keepsStore (lowerIncludes text filter).
Proof. unfold lowerIncludes. keeps_store. Qed.

Lemma keepsStore_filterRejects env filter data : keepsStore (filterRejects env filter data).
Proof.
  unfold filterRejects. keeps_store; try apply keepsStore_lowerIncludes; keeps_store.
Qed.

Lemma keepsStore_filterLoop env filters data : keepsStore (filterLoop env filters data).
Proof.
  induction filters as [|f rest IH]; simpl; [apply keepsStore_ret|].
  apply keepsStore_bind; [apply keepsStore_filterRejects|].
  intros [|]; [apply keepsStore_ret|done].
Qed.

Lemma keepsStore_executeNode env node context : keepsStore (executeNode env node context).
Proof.
  unfold executeNode.
  repeat match goal with |- keepsStore (if ?b then _ else _) => destruct b end.
  - apply keepsStore_ret.
  - unfold executeNewsDiscoveryNode. keeps_store.
  - unfold executeRssAggregatorNode. keeps_store.
  - unfold executeGoogleScholarNode. keeps_store.
  - unfold executePerplexityResearchNode. keeps_store.
  - unfold executeMultiSourceSynthesizerNode. keeps_store.
  - unfold executeAiProcessorNode. keeps_store.
  - unfold executeFilterNode, iterate. keeps_store; apply keepsStore_filterLoop.
  - unfold executePublisherNode. keeps_store.
  - apply keepsStore_ret.
Qed.

Lemma keepsStore_processContext env node acc context :
  keepsStore (processContext env node acc context).
Proof.
  unfold processContext. apply keepsStore_tryCatch; [|intros; apply keepsStore_ret].
  apply keepsStore_bind; [apply keepsStore_executeNode|]. intros r. keeps_store.
Qed.

Lemma keepsStore_processContexts env node contexts : ∀ acc,
  keepsStore (processContexts env node contexts acc).
Proof.
  induction contexts as [|c rest IH]; intros acc; simpl; [apply keepsStore_ret|].
  apply keepsStore_bind; [apply keepsStore_processContext|done].
Qed.

Lemma keepsStore_runNodes env sortedNodes : ∀ contexts,
  keepsStore (runNodes env sortedNodes contexts).
Proof.
  induction sortedNodes as [|n rest IH]; intros contexts; simpl; [apply keepsStore_ret|].
  apply keepsStore_bind; [apply keepsStore_processContexts|].
  intros [|c cs]; [apply keepsStore_ret|done].
Qed.

(** ** Engine: the fan-out never throws *)

Lemma logCreated_nil w : logCreated [] w = w.
Proof. destruct w. unfold logCreated. simpl. by rewrite app_nil_r. Qed.

Lemma processContext_Normal env node acc context w r w1 :
  executeNode env node context w = (Normal r, w1) →
  processContext env node acc context w =
    (Normal (acc ++ fanOut node context r), logCreated (fanOut node context r) w1).
Proof. intros H. unfold processContext, tryCatch, bind. by rewrite H. Qed.

Lemma processContext_Throw env node acc context w e w1 :
  executeNode env node context w = (Throw e, w1) →
  processContext env node acc context w = (Normal acc, w1).
Proof. intros H. unfold processContext, tryCatch, bind. by rewrite H. Qed.

Lemma processContext_total env node acc context w :
  ∃ out w', processContext env node acc context w = (Normal out, w').
Proof.
  destruct (executeNode env node context w) as [[r|e] w1] eqn:H.
  - eexists _, _. by apply processContext_Normal.
  - eexists _, _. by eapply processContext_Throw.
Qed.

Lemma processContexts_total env node contexts : ∀ acc w,
  ∃ out w', processContexts env node contexts acc w = (Normal out, w').
Proof.
  induction contexts as [|c rest IH]; intros acc w; simpl.
  - by eexists _, _.
  - unfold bind. destruct (processContext_total env node acc c w) as (out & w1 & ->).
    apply IH.
Qed.

Lemma processContexts_app env node l1 l2 acc w :
  processContexts env node (l1 ++ l2) acc w =
  bind (processContexts env node l1 acc) (processContexts env node l2) w.
Proof.
  revert acc w. induction l1 as [|c l1 IH]; intros acc w; simpl; [done|].
  unfold bind in *. destruct (processContext env node acc c w) as [[a|e] w1]; [|done].
  apply IH.
Qed.

Lemma runNodes_total env sortedNodes : ∀ contexts w,
  ∃ out w', runNodes env sortedNodes contexts w = (Normal out, w').
Proof.
  induction sortedNodes as [|n rest IH]; intros contexts w; simpl.
  - by eexists _, _.
  - unfold bind. destruct (processContexts_total env n contexts [] w) as (out & w1 & ->).
    destruct out; [by eexists _, _|apply IH].
Qed.

(** Once a generation is empty the remaining nodes are not run. *)
Lemma runNodes_break env pre node rest contexts w g w1 w2 :
  runNodes env pre contexts w = (Normal g, w1) →
  processContexts env node g [] w1 = (Normal [], w2) →
  runNodes env (pre ++ node :: rest) contexts w = (Normal [], w2).
Proof.
  revert contexts w. induction pre as [|p pre IH]; intros contexts w Hpre Hnode; simpl in *.
  - injection Hpre as -> ->. unfold bind. by rewrite Hnode.
  - unfold bind in *.
    destruct (processContexts env p contexts [] w) as [[new|e] w'] eqn:Hp; [|done].
    destruct new as [|c cs].
    + injection Hpre as <- <-. simpl in Hnode. by injection Hnode as <-.
    + by apply IH.
Qed.

(** ** Engine: the coordinator *)

Section Coordinator.
Context (env : Env) (workflowId : string) (nodes : list WorkflowNode) (triggerData : JsVal).
Context (w : World) (execution error : JsVal).
Hypothesis Hinsert :
  insertResponse env w executionsTable (initialRecord env workflowId w) = (execution, error).

Lemma executeWorkflow_insert_error :
  truthy error = true →
  executeWorkflow env workflowId nodes triggerData w =
    (Throw (JsThrown error), afterInsert env workflowId w).
Proof.
  intros Herr. unfold executeWorkflow, bind, storeInsert, throwIfError. simpl.
  rewrite Hinsert. simpl. by rewrite Herr.
Qed.

Lemma executeWorkflow_completed sortedNodes final w2 :
  truthy error = false → isNullish execution = false →
  topologicalSort nodes = Sorted sortedNodes →
  runNodes env sortedNodes [rootContext (readProp execution "id") triggerData]
    (runStart env workflowId triggerData execution w) = (Normal final, w2) →
  executeWorkflow env workflowId nodes triggerData w =
    (Normal (JArr [JObj (setProp (spreadProps execution) "status" (JStr "completed"))]),
     logStore (OpUpdate executionsTable
                 (completedFields (JStr (toISOString env (currentTime env w2))) final)
                 "id" (readProp execution "id")) w2).
Proof.
  intros Herr Hrow Hsort Hrun.
  unfold executeWorkflow, bind, tryCatch, storeInsert, throwIfError, sortNodes, getProp.
  simpl. rewrite Hinsert. simpl. rewrite Herr, Hsort. simpl. rewrite Hrow. simpl.
  unfold runStart, afterInsert in Hrun. by rewrite Hrun.
Qed.

Lemma executeWorkflow_cycle :
  truthy error = false → isNullish execution = false →
  topologicalSort nodes = CircularDependency →
  executeWorkflow env workflowId nodes triggerData w =
    (Throw (JsError false cycleMessage),
     logStore (OpUpdate executionsTable
                 (failedFields
                    (JStr (toISOString env (currentTime env (afterInsert env workflowId w))))
                    (JsError false cycleMessage))
                 "id" (readProp execution "id")) (afterInsert env workflowId w)).
Proof.
  intros Herr Hrow Hsort.
  unfold executeWorkflow, bind, tryCatch, storeInsert, throwIfError, sortNodes, getProp.
  simpl. rewrite Hinsert. simpl. rewrite Herr, Hsort. simpl. unfold bind. simpl.
  by rewrite Hrow.
Qed.

(** Whatever the insert answers, a cycle means that no context is built and
    no node is executed. *)
Lemma executeWorkflow_cycle_nothing_run :
  topologicalSort nodes = CircularDependency →
  ∃ e w', executeWorkflow env workflowId nodes triggerData w = (Throw e, w') ∧
          created w' = created w ∧ calls w' = calls w.
Proof.
  intros Hsort.
  unfold executeWorkflow, bind, tryCatch, storeInsert, throwIfError, sortNodes, getProp.
  simpl. rewrite Hinsert. simpl. rewrite Hsort.
  destruct (truthy error); simpl; [by eexists _, _|].
  unfold bind. simpl. destruct (isNullish execution); simpl; by eexists _, _.
Qed.

End Coordinator.

(** ** C3 *)

Lemma spawn_id_inj node context i j :
  executionId (spawn node context i (JNull)) = executionId (spawn node context j JNull) →
  i = j.
Proof.
  unfold spawn. simpl. intros [= H].
  do 4 apply String.app_inj in H. by apply pretty_nat_inj.
Qed.

Lemma fanOut_array_ids_NoDup node context results :
  NoDup (map executionId (imap (spawn node context) results)).
Proof.
  apply NoDup_alt. intros i j x Hi Hj.
  change (map executionId ?l) with (executionId <$> l) in *.
  rewrite list_lookup_fmap, list_lookup_imap in Hi, Hj.
  destruct (results !! i) as [ri|]; [|done]. destruct (results !! j) as [rj|]; [|done].
  simpl in *. injection Hi as Hi. injection Hj as Hj. subst x.
  apply (spawn_id_inj node context). simpl. by injection Hj as ->.
Qed.

(** C3. The three outcomes of one evaluation of the node executor.  When
    [executeNode] returns normally, [processContext] returns normally too and
    appends [pushed] to [newContexts].  For an array of results, [pushed] has
    one context per element, the one at position [index] having the id
    [{parent id}-{node id}-{index}], the element as data and the parent's
    metadata with the key [{node type}_{node id}] set to the element; the ids
    are pairwise different.  For null or undefined nothing is pushed.  For
    any other value one context is pushed, with the parent's id, the value as
    data and the metadata extended in the same way. *)
Theorem fanOut_three_outcomes env node context newContexts w nodeResults w1 :
  executeNode env node context w = (Normal nodeResults, w1) →
  ∃ pushed,
    processContext env node newContexts context w =
      (Normal (newContexts ++ pushed), logCreated pushed w1) ∧
    match nodeResults with
    | JArr results =>
        length pushed = length results ∧
        (∀ index result, results !! index = Some result →
           pushed !! index =
             Some (mkContext
                     (JStr (toStringJs (executionId context) +:+ "-" +:+ id node +:+
                            "-" +:+ pretty index))
                     result
                     (<[type node +:+ "_" +:+ id node := result]> (metadata context)))) ∧
        NoDup (map executionId pushed)
    | JUndefined | JNull => pushed = []
    | single =>
        pushed = [mkContext (executionId context) single
                    (<[type node +:+ "_" +:+ id node := single]> (metadata context))]
    end.
Proof.
  intros Hexec. exists (fanOut node context nodeResults).
  split; [by apply processContext_Normal|].
  destruct nodeResults as [| | | | |results|]; try reflexivity.
  simpl. split; [apply length_imap|]. split; [|apply fanOut_array_ids_NoDup].
  intros index result Hlook. rewrite list_lookup_imap, Hlook. done.
Qed.

(** ** C4 *)

(** What a run that got past the sort sends to the store and returns. *)
Lemma executeWorkflow_sorted_completes env workflowId nodes triggerData w execution error
    sortedNodes :
  insertResponse env w executionsTable (initialRecord env workflowId w) = (execution, error) →
  truthy error = false → isNullish execution = false →
  topologicalSort nodes = Sorted sortedNodes →
  ∃ final w2,
    runNodes env sortedNodes [rootContext (readProp execution "id") triggerData]
      (runStart env workflowId triggerData execution w) = (Normal final, w2) ∧
    executeWorkflow env workflowId nodes triggerData w =
      (Normal (JArr [JObj (setProp (spreadProps execution) "status" (JStr "completed"))]),
       logStore (OpUpdate executionsTable
                   (completedFields (JStr (toISOString env (currentTime env w2))) final)
                   "id" (readProp execution "id")) w2) ∧
    storeOps w2 = storeOps w ++ [OpInsert executionsTable (initialRecord env workflowId w)].
Proof.
  intros Hins Herr Hrow Hsort.
  destruct (runNodes_total env sortedNodes
              [rootContext (readProp execution "id") triggerData]
              (runStart env workflowId triggerData execution w))
    as (final & w2 & Hrun).
  exists final, w2. split; [done|]. split.
  - by eapply executeWorkflow_completed.
  - pose proof (keepsStore_runNodes env sortedNodes
        [rootContext (readProp execution "id") triggerData]
        (runStart env workflowId triggerData execution w)) as Hk.
    rewrite Hrun in Hk. exact Hk.
Qed.

Lemma fanOut_data node context nodeResults :
  map data (fanOut node context nodeResults) = resultsOf nodeResults.
Proof.
  destruct nodeResults as [| | | | |results|]; try reflexivity.
  simpl. apply list_eq. intros index.
  change (map data (imap (spawn node context) results))
    with (data <$> imap (spawn node context) results).
  rewrite list_lookup_fmap, list_lookup_imap. by destruct (results !! index).
Qed.

(** What the loop over a generation adds to [newContexts], whatever that
    holds: the contexts of the evaluations that did not fail. *)
Lemma processContexts_outcomes env node contexts : ∀ w,
  ∃ next w',
    (∀ newContexts,
       processContexts env node contexts newContexts w = (Normal (newContexts ++ next), w')) ∧
    map data next = survivors (outcomes env node contexts w).
Proof.
  induction contexts as [|context rest IH]; intros w.
  - exists [], w. split; [|done]. intros newContexts. simpl. by rewrite app_nil_r.
  - simpl. destruct (executeNode env node context w) as [[r|e] w1] eqn:Hrun.
    + destruct (IH (logCreated (fanOut node context r) w1)) as (next & w' & Hloop & Hdata).
      exists (fanOut node context r ++ next), w'. split.
      * intros newContexts. unfold bind.
        rewrite (processContext_Normal _ _ newContexts _ _ _ _ Hrun), Hloop.
        by rewrite <- app_assoc.
      * rewrite map_app, fanOut_data, Hdata. done.
    + destruct (IH w1) as (next & w' & Hloop & Hdata).
      exists next, w'. split; [|done].
      intros newContexts. unfold bind.
      by rewrite (processContext_Throw _ _ newContexts _ _ _ _ Hrun), Hloop.
Qed.

(** C4. Partial-failure isolation.  If, in a generation
    [before ++ failing :: after] at a node, the executor throws for
    [failing], the loop returns normally and the next generation holds
    exactly the results of the other contexts: those of [before], then those
    of [after], processed as if [failing] were not there.  And a run whose
    insert succeeded and whose sort returned ends, whatever the executors
    throw, in a normal return of the record with status completed, its only
    update being the one to completed. *)
Theorem partial_failure_isolation env node before failing after w acc1 w1 e w2 :
  processContexts env node before [] w = (Normal acc1, w1) →
  executeNode env node failing w1 = (Throw e, w2) →
  (∃ next w3,
     processContexts env node (before ++ failing :: after) [] w
       = (Normal (acc1 ++ next), w3) ∧
     processContexts env node after [] w2 = (Normal next, w3) ∧
     map data (acc1 ++ next) =
       survivors (outcomes env node before w) ++ survivors (outcomes env node after w2)) ∧
  (∀ workflowId nodes sortedNodes triggerData w0 execution error,
     insertResponse env w0 executionsTable (initialRecord env workflowId w0)
       = (execution, error) →
     truthy error = false → isNullish execution = false →
     topologicalSort nodes = Sorted sortedNodes →
     ∃ final w',
       executeWorkflow env workflowId nodes triggerData w0 =
         (Normal (JArr [JObj (setProp (spreadProps execution) "status" (JStr "completed"))]),
          w') ∧
       ∃ completed_at,
         storeOps w' = storeOps w0 ++
           [OpInsert executionsTable (initialRecord env workflowId w0);
            OpUpdate executionsTable (completedFields completed_at final)
              "id" (readProp execution "id")]).
Proof.
  intros Hbefore Hfail. split.
  - destruct (processContexts_outcomes env node before w) as (next1 & w1' & Hloop1 & Hdata1).
    rewrite (Hloop1 []) in Hbefore. injection Hbefore as <- <-.
    destruct (processContexts_outcomes env node after w2) as (next & w3 & Hloop & Hdata).
    exists next, w3. split; [|split].
    + rewrite processContexts_app. unfold bind. rewrite (Hloop1 []). simpl.
      unfold bind. by rewrite (processContext_Throw _ _ _ _ _ _ _ Hfail), Hloop.
    + by rewrite (Hloop []).
    + simpl. by rewrite map_app, Hdata1, Hdata.
  - intros workflowId nodes sortedNodes triggerData w0 execution error Hins Herr Hrow Hsort.
    destruct (executeWorkflow_sorted_completes _ _ _ triggerData _ _ _ _ Hins Herr Hrow Hsort)
      as (final & w' & _ & Hrun & Hstore).
    eexists final, _. split; [exact Hrun|].
    eexists. simpl. rewrite Hstore. by rewrite <- app_assoc.
Qed.

(** ** C5 *)

Lemma trigger_cycle_not_acyclic nodes c : tc (edge nodes) c c → ¬ acyclic nodes.
Proof. intros Hc Hacyc. by apply (Hacyc c). Qed.

(** C5. If a cycle can be reached from a trigger node, [topologicalSort]
    fails with the cycle error, and the run of [executeWorkflow] ends in a
    throw without having built any execution context or called any
    collaborator function. *)
Theorem cycle_from_trigger_aborts env workflowId nodes triggerData w t c :
  In t nodes → isTrigger t = true →
  rtc (edge nodes) (id t) c → tc (edge nodes) c c →
  topologicalSort nodes = CircularDependency ∧
  ∃ e w', executeWorkflow env workflowId nodes triggerData w = (Throw e, w') ∧
          created w' = created w ∧ calls w' = calls w.
Proof.
  intros _ _ _ Hcycle.
  assert (Hsort : topologicalSort nodes = CircularDependency).
  { apply cycle_throws. by eapply trigger_cycle_not_acyclic. }
  split; [done|].
  destruct (insertResponse env w executionsTable (initialRecord env workflowId w))
    as [execution error] eqn:Hins.
  by eapply executeWorkflow_cycle_nothing_run.
Qed.

(** ** C6 *)

(** C6, as the code has it.  When the insert succeeded and [topologicalSort]
    throws the cycle error, the coordinator's [catch] sends one update that
    sets the record to failed, with [completed_at] and the error's message,
    and rethrows the error; no context is built and no collaborator function
    is called. *)
Theorem cycle_recorded_as_failed env workflowId nodes triggerData w execution error :
  insertResponse env w executionsTable (initialRecord env workflowId w) = (execution, error) →
  truthy error = false → isNullish execution = false →
  topologicalSort nodes = CircularDependency →
  ∃ w' completed_at,
    executeWorkflow env workflowId nodes triggerData w =
      (Throw (JsError false cycleMessage), w') ∧
    storeOps w' = storeOps w ++
      [OpInsert executionsTable (initialRecord env workflowId w);
       OpUpdate executionsTable
         (JObj [("status", JStr "failed");
                ("completed_at", JStr completed_at);
                ("error_message", JStr cycleMessage)])
         "id" (readProp execution "id")] ∧
    created w' = created w ∧ calls w' = calls w.
Proof.
  intros Hins Herr Hrow Hsort.
  eexists _, _. split; [by eapply executeWorkflow_cycle|].
  simpl. split; [|done]. by rewrite <- app_assoc.
Qed.

(** ** C8 *)

(** C8. In a run whose insert succeeded, the store receives exactly two
    requests: the insert of a record with status running and no
    [completed_at], then one update of that record, which sets the status to
    completed or to failed and sets [completed_at]. *)
Theorem record_lifecycle env workflowId nodes triggerData w execution error :
  insertResponse env w executionsTable (initialRecord env workflowId w) = (execution, error) →
  truthy error = false → isNullish execution = false →
  ∃ fields completed_at,
    storeOps (snd (executeWorkflow env workflowId nodes triggerData w)) =
      storeOps w ++ [OpInsert executionsTable (initialRecord env workflowId w);
                     OpUpdate executionsTable fields "id" (readProp execution "id")] ∧
    readProp (initialRecord env workflowId w) "status" = JStr "running" ∧
    hasOwn (initialRecord env workflowId w) "completed_at" = false ∧
    (readProp fields "status" = JStr "completed" ∨ readProp fields "status" = JStr "failed") ∧
    readProp fields "completed_at" = JStr completed_at.
Proof.
  intros Hins Herr Hrow.
  destruct (topologicalSort nodes) as [sortedNodes| |] eqn:Hsort.
  - destruct (executeWorkflow_sorted_completes _ _ _ triggerData _ _ _ _ Hins Herr Hrow Hsort)
      as (final & w2 & _ & -> & Hstore).
    eexists _, _. simpl. rewrite Hstore, <- app_assoc. simpl.
    split; [reflexivity|]. split; [done|]. split; [done|]. split; [by left|done].
  - rewrite (executeWorkflow_cycle _ _ _ triggerData _ _ _ Hins Herr Hrow Hsort).
    eexists _, _. simpl. rewrite <- app_assoc. simpl.
    split; [reflexivity|]. split; [done|]. split; [done|]. split; [by right|done].
  - by apply topologicalSort_total in Hsort.
Qed.

(** ** C9 *)

(** C9. In a run whose insert succeeded, if the generation is empty after
    the contexts of some node have been processed, the nodes that follow it in
    the order are not run (the world the run leaves is the one reached after
    that node, plus the update), and the run returns normally: the record is
    updated to completed, not failed, with the number of final contexts, 0,
    and the list of their payloads, empty, as result. *)
Theorem empty_generation_completes env workflowId nodes triggerData w execution error
    pre node rest generation w1 w2 :
  insertResponse env w executionsTable (initialRecord env workflowId w) = (execution, error) →
  truthy error = false → isNullish execution = false →
  topologicalSort nodes = Sorted (pre ++ node :: rest) →
  runNodes env pre [rootContext (readProp execution "id") triggerData]
    (runStart env workflowId triggerData execution w) = (Normal generation, w1) →
  processContexts env node generation [] w1 = (Normal [], w2) →
  executeWorkflow env workflowId nodes triggerData w =
    (Normal (JArr [JObj (setProp (spreadProps execution) "status" (JStr "completed"))]),
     logStore (OpUpdate executionsTable
       (JObj [("status", JStr "completed");
              ("completed_at", JStr (toISOString env (currentTime env w2)));
              ("result", JObj [("contexts", JNum 0); ("final_results", JArr [])])])
       "id" (readProp execution "id")) w2).
Proof.
  intros Hins Herr Hrow Hsort Hpre Hnode.
  pose proof (runNodes_break env pre node rest _ _ _ _ _ Hpre Hnode) as Hrun.
  by apply (executeWorkflow_completed _ _ _ _ _ _ _ Hins (pre ++ node :: rest) [] w2).
Qed.

(** ** C10 *)

Lemma newDate_undefined env : newDate env JUndefined = None.
Proof. reflexivity. Qed.

Lemma strictEqStr_not_nullish v text : strictEqStr v text = true → isNullish v = false.
Proof. by destruct v. Qed.

Lemma readProp_nullish v key : isNullish v = true → readProp v key = JUndefined.
Proof. by destruct v. Qed.

(** C10. A date rule never rejects a payload without a valid date: when
    neither [publishedAt] nor [published_date] gives a valid date, the turn of
    the loop for a rule of type [date] does not end in [return null],
    whatever the rule's operator and date; for a payload that is not null or
    undefined the turn passes, and the loop goes on with the next rule. *)
Theorem date_rule_passes_dateless env filter data w :
  strictEqStr (readProp filter "type") "date" = true →
  newDate env (readProp data "publishedAt") = None →
  newDate env (readProp data "published_date") = None →
  fst (filterRejects env filter data w) ≠ Normal true ∧
  (isNullish data = false →
     filterRejects env filter data w = (Normal false, w) ∧
     ∀ rest, filterLoop env (filter :: rest) data w = filterLoop env rest data w).
Proof.
  intros Hkind Hat Hdate.
  assert (Hfilter : isNullish filter = false).
  { destruct (isNullish filter) eqn:Hn; [|done].
    by rewrite (readProp_nullish _ _ Hn) in Hkind. }
  assert (Hinvalid : newDate env (orElse (readProp data "publishedAt")
                                         (readProp data "published_date")) = None).
  { unfold orElse. by destruct (truthy _). }
  assert (Hpass : isNullish data = false → filterRejects env filter data w = (Normal false, w)).
  { intros Hdata. unfold filterRejects, bind, getProp. rewrite Hfilter. simpl.
    assert (strictEqStr (readProp filter "type") "keyword" = false) as ->.
    { destruct (readProp filter "type") as [| | | |s| |]; try done. simpl in *.
      apply String.eqb_eq in Hkind. by subst s. }
    rewrite Hkind, Hdata. simpl. rewrite Hinvalid. simpl.
    by rewrite !andb_false_r. }
  split.
  - destruct (isNullish data) eqn:Hdata; [|by rewrite Hpass].
    unfold filterRejects, bind, getProp. rewrite Hfilter. simpl.
    assert (strictEqStr (readProp filter "type") "keyword" = false) as ->.
    { destruct (readProp filter "type") as [| | | |s| |]; try done. simpl in *.
      apply String.eqb_eq in Hkind. by subst s. }
    rewrite Hkind, Hdata. simpl. done.
  - intros Hdata. split; [by apply Hpass|].
    intros rest. simpl. unfold bind. by rewrite (Hpass Hdata).
Qed.

(** ** C7 *)

Lemma In_allCharacters c : In c allCharacters.
Proof.
  rewrite <- (ascii_nat_embedding c). apply in_map, in_seq.
  pose proof (nat_ascii_bounded c). lia.
Qed.

(** Lowering identifies exactly the characters that differ at most in case. *)
Lemma sameLetter_lower a b :
  sameLetter a b = Ascii.eqb (lowerCodeUnit a) (lowerCodeUnit b).
Proof.
  assert (H : forallb (fun x => forallb (fun y =>
                Bool.eqb (sameLetter x y) (Ascii.eqb (lowerCodeUnit x) (lowerCodeUnit y)))
              allCharacters) allCharacters = true) by (vm_compute; reflexivity).
  rewrite forallb_forall in H. specialize (H a (In_allCharacters a)).
  rewrite forallb_forall in H. specialize (H b (In_allCharacters b)).
  by apply Bool.eqb_prop in H.
Qed.




Lemma strictEqStr_other v a b :
  strictEqStr v a = true → a ≠ b → strictEqStr v b = false.
Proof.
  destruct v; try done. simpl. intros ->%String.eqb_eq Hne. by apply String.eqb_neq.
Qed.








(** ** C2 *)

(** C2, as the code runs it.  On the pipeline trigger -> discovery -> filter
    -> publisher, [topologicalSort] puts the publisher first and the trigger
    last.  The run publishes the empty root payload, the filter then rejects
    it for want of a title, and the run completes with no final payload; the
    discovery function is never called. *)
Theorem pipeline_runs_publisher_first :
  topologicalSort pipelineNodes =
    Sorted [publisherNode; filterNode; discoveryNode; triggerNode] ∧
  let run := executeWorkflow sampleEnv "wf" pipelineNodes JUndefined emptyWorld in
  (∃ record, fst run = Normal (JArr [record]) ∧ readProp record "status" = JStr "completed") ∧
  map fst (calls (snd run)) = ["create-article-from-ai"] ∧
  last (storeOps (snd run)) =
    Some (OpUpdate executionsTable
            (JObj [("status", JStr "completed");
                   ("completed_at", JStr "T2");
                   ("result", JObj [("contexts", JNum 0); ("final_results", JArr [])])])
            "id" (JStr "run-1")).
Proof.
  split; [by vm_compute|]. split; [|split]; [|by vm_compute..].
  eexists. split; [by vm_compute|]. by vm_compute.
Qed.

(** Run trigger first, the same pipeline ends with the one article that
    mentions the launch, after one call of each collaborator function. *)
Lemma pipeline_trigger_first :
  let run := runNodes sampleEnv pipelineNodes [sampleRoot] emptyWorld in
  (∃ final, fst run = Normal [final] ∧
            readProp (data final) "title" = JStr "Product launch today") ∧
  map fst (calls (snd run)) = ["news-discovery"; "create-article-from-ai"].
Proof.
  split; [|by vm_compute]. eexists. split; by vm_compute.
Qed.

(** ** Instances on the sample inputs *)

Lemma topologicalSort_acyclic_order_witness :
  NoDup (map id pipelineNodes) ∧ acyclic pipelineNodes ∧
  ∃ pre post,
    topologicalSort pipelineNodes = Sorted (pre ++ post) ∧
    Permutation (pre ++ post) pipelineNodes ∧
    (∀ u nv, In u pipelineNodes → In nv pipelineNodes → In (id nv) (connected u) →
             Before nv u (pre ++ post)) ∧
    (∀ n, In n pre ↔ In n pipelineNodes ∧ fromTrigger pipelineNodes n) ∧
    (∀ a b, In a post → In b post → Before b a (pre ++ post) →
            ∃ r, AtOrBefore r a pipelineNodes ∧ rtc (edge pipelineNodes) (id r) (id b)).
Proof.
  assert (Hnd : NoDup (map id pipelineNodes)).
  { apply (bool_decide_unpack _). by vm_compute. }
  assert (Hacyc : acyclic pipelineNodes).
  { eapply Sorted_acyclic. by vm_compute. }
  split; [exact Hnd|]. split; [exact Hacyc|].
  exact (topologicalSort_acyclic_order pipelineNodes Hnd Hacyc).
Defined.

Lemma fanOut_three_outcomes_witness :
  ∃ first second w1,
    executeNode sampleEnv discoveryNode sampleRoot emptyWorld
      = (Normal (JArr [first; second]), w1) ∧
    ∃ pushed,
      processContext sampleEnv discoveryNode [] sampleRoot emptyWorld =
        (Normal ([] ++ pushed), logCreated pushed w1) ∧
      length pushed = 2 ∧
      (∀ index result, [first; second] !! index = Some result →
         pushed !! index =
           Some (mkContext
                   (JStr (toStringJs (executionId sampleRoot) +:+ "-" +:+ id discoveryNode +:+
                          "-" +:+ pretty index))
                   result
                   (<[type discoveryNode +:+ "_" +:+ id discoveryNode := result]>
                      (metadata sampleRoot)))) ∧
      NoDup (map executionId pushed).
Proof.
  eexists _, _, _. split; [by vm_compute|].
  exact (fanOut_three_outcomes sampleEnv discoveryNode sampleRoot [] emptyWorld _ _ eq_refl).
Defined.

Lemma partial_failure_isolation_witness :
  ∃ acc1 w1 e w2,
    processContexts sampleEnv publisherNode [launchContext] [] emptyWorld
      = (Normal acc1, w1) ∧
    executeNode sampleEnv publisherNode brokenContext w1 = (Throw e, w2) ∧
    (∃ next w3,
       processContexts sampleEnv publisherNode
           ([launchContext] ++ brokenContext :: [weatherContext]) [] emptyWorld
         = (Normal (acc1 ++ next), w3) ∧
       processContexts sampleEnv publisherNode [weatherContext] [] w2 = (Normal next, w3) ∧
       map data (acc1 ++ next) =
         survivors (outcomes sampleEnv publisherNode [launchContext] emptyWorld) ++
         survivors (outcomes sampleEnv publisherNode [weatherContext] w2)) ∧
    (∀ workflowId nodes sortedNodes triggerData w0 execution error,
       insertResponse sampleEnv w0 executionsTable (initialRecord sampleEnv workflowId w0)
         = (execution, error) →
       truthy error = false → isNullish execution = false →
       topologicalSort nodes = Sorted sortedNodes →
       ∃ final w',
         executeWorkflow sampleEnv workflowId nodes triggerData w0 =
           (Normal (JArr [JObj (setProp (spreadProps execution) "status"
                                  (JStr "completed"))]), w') ∧
         ∃ completed_at,
           storeOps w' = storeOps w0 ++
             [OpInsert executionsTable (initialRecord sampleEnv workflowId w0);
              OpUpdate executionsTable (completedFields completed_at final)
                "id" (readProp execution "id")]).
Proof.
  eexists _, _, _, _. split; [by vm_compute|]. split; [by vm_compute|].
  exact (partial_failure_isolation sampleEnv publisherNode [launchContext] brokenContext
           [weatherContext] emptyWorld _ _ _ _ eq_refl eq_refl).
Defined.

Lemma loopNodes_cycle : tc (edge loopNodes) "t" "t".
Proof.
  apply (tc_l _ "t" "a" "t").
  - eexists. split; [by vm_compute|]. by left.
  - apply tc_once. eexists. split; [by vm_compute|]. by left.
Qed.

Lemma cycle_from_trigger_aborts_witness :
  In (mkNode "t" "trigger" "Start" (JObj []) ["a"]) loopNodes ∧
  isTrigger (mkNode "t" "trigger" "Start" (JObj []) ["a"]) = true ∧
  rtc (edge loopNodes) "t" "t" ∧ tc (edge loopNodes) "t" "t" ∧
  topologicalSort loopNodes = CircularDependency ∧
  ∃ e w', executeWorkflow sampleEnv "wf" loopNodes JUndefined emptyWorld = (Throw e, w') ∧
          created w' = created emptyWorld ∧ calls w' = calls emptyWorld.
Proof.
  assert (Hin : In (mkNode "t" "trigger" "Start" (JObj []) ["a"]) loopNodes) by by left.
  split; [exact Hin|]. split; [reflexivity|]. split; [apply rtc_refl|].
  split; [exact loopNodes_cycle|].
  exact (cycle_from_trigger_aborts sampleEnv "wf" loopNodes JUndefined emptyWorld
           (mkNode "t" "trigger" "Start" (JObj []) ["a"]) "t"
           Hin eq_refl (rtc_refl _ _) loopNodes_cycle).
Defined.

(** C6, as stated, fails on the looping graph: the sort throws the cycle
    error and the store does receive an update to failed. *)
Lemma cycle_update_counterexample :
  ¬ (topologicalSort loopNodes = CircularDependency →
     existsb (updatesStatusTo "failed")
       (storeOps (snd (executeWorkflow sampleEnv "wf" loopNodes JUndefined emptyWorld)))
     = false).
Proof.
  intros H. assert (Hsort : topologicalSort loopNodes = CircularDependency) by by vm_compute.
  specialize (H Hsort). vm_compute in H. discriminate.
Qed.

Lemma cycle_recorded_as_failed_witness :
  ∃ execution error,
    insertResponse sampleEnv emptyWorld executionsTable
      (initialRecord sampleEnv "wf" emptyWorld) = (execution, error) ∧
    truthy error = false ∧ isNullish execution = false ∧
    topologicalSort loopNodes = CircularDependency ∧
    ∃ w' completed_at,
      executeWorkflow sampleEnv "wf" loopNodes JUndefined emptyWorld =
        (Throw (JsError false cycleMessage), w') ∧
      storeOps w' = storeOps emptyWorld ++
        [OpInsert executionsTable (initialRecord sampleEnv "wf" emptyWorld);
         OpUpdate executionsTable
           (JObj [("status", JStr "failed");
                  ("completed_at", JStr completed_at);
                  ("error_message", JStr cycleMessage)])
           "id" (readProp execution "id")] ∧
      created w' = created emptyWorld ∧ calls w' = calls emptyWorld.
Proof.
  eexists _, _. split; [by vm_compute|]. split; [reflexivity|]. split; [reflexivity|].
  assert (Hsort : topologicalSort loopNodes = CircularDependency) by by vm_compute.
  split; [exact Hsort|].
  exact (cycle_recorded_as_failed sampleEnv "wf" loopNodes JUndefined emptyWorld _ _
           eq_refl eq_refl eq_refl Hsort).
Defined.



Lemma record_lifecycle_witness :
  ∃ execution error,
    insertResponse sampleEnv emptyWorld executionsTable
      (initialRecord sampleEnv "wf" emptyWorld) = (execution, error) ∧
    truthy error = false ∧ isNullish execution = false ∧
    ∃ fields completed_at,
      storeOps (snd (executeWorkflow sampleEnv "wf" pipelineNodes JUndefined emptyWorld)) =
        storeOps emptyWorld ++
          [OpInsert executionsTable (initialRecord sampleEnv "wf" emptyWorld);
           OpUpdate executionsTable fields "id" (readProp execution "id")] ∧
      readProp (initialRecord sampleEnv "wf" emptyWorld) "status" = JStr "running" ∧
      hasOwn (initialRecord sampleEnv "wf" emptyWorld) "completed_at" = false ∧
      (readProp fields "status" = JStr "completed" ∨
       readProp fields "status" = JStr "failed") ∧
      readProp fields "completed_at" = JStr completed_at.
Proof.
  eexists _, _. split; [by vm_compute|]. split; [reflexivity|]. split; [reflexivity|].
  exact (record_lifecycle sampleEnv "wf" pipelineNodes JUndefined emptyWorld _ _
           eq_refl eq_refl eq_refl).
Defined.

Lemma empty_generation_completes_witness :
  ∃ execution error generation w1 w2,
    insertResponse sampleEnv emptyWorld executionsTable
      (initialRecord sampleEnv "wf" emptyWorld) = (execution, error) ∧
    truthy error = false ∧ isNullish execution = false ∧
    topologicalSort pipelineNodes =
      Sorted ([publisherNode] ++ filterNode :: [discoveryNode; triggerNode]) ∧
    runNodes sampleEnv [publisherNode] [rootContext (readProp execution "id") JUndefined]
      (runStart sampleEnv "wf" JUndefined execution emptyWorld) = (Normal generation, w1) ∧
    processContexts sampleEnv filterNode generation [] w1 = (Normal [], w2) ∧
    executeWorkflow sampleEnv "wf" pipelineNodes JUndefined emptyWorld =
      (Normal (JArr [JObj (setProp (spreadProps execution) "status" (JStr "completed"))]),
       logStore (OpUpdate executionsTable
         (JObj [("status", JStr "completed");
                ("completed_at", JStr (toISOString sampleEnv (currentTime sampleEnv w2)));
                ("result", JObj [("contexts", JNum 0); ("final_results", JArr [])])])
         "id" (readProp execution "id")) w2).
Proof.
  eexists _, _, _, _, _. split; [by vm_compute|]. split; [reflexivity|].
  split; [reflexivity|].
  assert (Hsort : topologicalSort pipelineNodes =
            Sorted ([publisherNode] ++ filterNode :: [discoveryNode; triggerNode]))
    by by vm_compute.
  split; [exact Hsort|]. split; [by vm_compute|]. split; [by vm_compute|].
  exact (empty_generation_completes sampleEnv "wf" pipelineNodes JUndefined emptyWorld _ _
           [publisherNode] filterNode [discoveryNode; triggerNode] _ _ _
           eq_refl eq_refl eq_refl Hsort eq_refl eq_refl).
Defined.

Lemma date_rule_passes_dateless_witness :
  strictEqStr (readProp afterRule "type") "date" = true ∧
  newDate sampleEnv (readProp (data weatherContext) "publishedAt") = None ∧
  newDate sampleEnv (readProp (data weatherContext) "published_date") = None ∧
  fst (filterRejects sampleEnv afterRule (data weatherContext) emptyWorld) ≠ Normal true ∧
  (isNullish (data weatherContext) = false →
     filterRejects sampleEnv afterRule (data weatherContext) emptyWorld
       = (Normal false, emptyWorld) ∧
     ∀ rest, filterLoop sampleEnv (afterRule :: rest) (data weatherContext) emptyWorld
             = filterLoop sampleEnv rest (data weatherContext) emptyWorld).
Proof.
  split; [reflexivity|]. split; [reflexivity|]. split; [reflexivity|].
  exact (date_rule_passes_dateless sampleEnv afterRule (data weatherContext) emptyWorld
           eq_refl eq_refl eq_refl).
Defined.

(** * Further properties *)

(** ** The graph orderer on arbitrary node lists *)

(** X1. [topologicalSort] returns a list exactly when the graph is acyclic:
    a cycle anywhere in the list, reachable from a trigger or not, makes it
    throw, and nothing else does. *)
Theorem sort_returns_iff_acyclic nodes :
  (∃ out, topologicalSort nodes = Sorted out) ↔ acyclic nodes.
Proof.
  split.
  - intros [out Hrun]. by apply (Sorted_acyclic nodes out).
  - intros Hacyc. destruct (topologicalSort nodes) as [out| |] eqn:Hrun.
    + by exists out.
    + by apply topologicalSort_no_cycle in Hrun.
    + by apply topologicalSort_total in Hrun.
Qed.

(** X2. Duplicate ids are not rejected: whenever the sort returns, its output
    has pairwise different ids and holds, for every id of the input, the first
    input node with that id and no other node. *)
Theorem sort_keeps_first_of_each_id nodes out :
  topologicalSort nodes = Sorted out →
  NoDup (map id out) ∧
  (∀ n, In n out ↔ lookupNode nodes (id n) = Some n) ∧
  (∀ m, In m nodes → ∃ n, In n out ∧ id n = id m).
Proof.
  intros Hrun.
  apply topologicalSort_Sorted in Hrun as (st1 & st2 & _ & _ & -> & _ & Hp2).
  destruct Hp2 as (Hinv & _ & _ & Hall).
  split; [apply (inv_nodup _ _ Hinv)|]. split.
  - intros n. split; [apply (inv_lookup _ _ Hinv)|].
    intros Hl. apply (Hall (id n)); [|done].
    apply lookupNode_Some in Hl as [Hin _]. by apply in_map.
  - intros m Hm. destruct (lookupNode nodes (id m)) as [n|] eqn:Hl.
    + exists n. split; [|by apply lookupNode_Some in Hl as [_ ?]].
      apply (Hall (id m)); [by apply in_map|done].
    + by destruct (lookupNode_None nodes _ _ Hl Hm).
Qed.

(** X3. The node the sort puts first has no successor in the list: every id
    in its [connected] resolves to no node.  So a node with a successor that
    exists, a trigger included, is never the first to be executed. *)
Theorem sort_first_has_no_successor nodes first rest :
  topologicalSort nodes = Sorted (first :: rest) →
  ∀ v, In v (connected first) → lookupNode nodes v = None.
Proof.
  intros Hrun v Hv.
  apply topologicalSort_Sorted in Hrun as (st1 & st2 & _ & _ & Hout & _ & Hp2).
  destruct Hp2 as (Hinv & _ & _ & _).
  destruct (lookupNode nodes v) as [nv|] eqn:Hl; [|done].
  exfalso. by apply (inv_order _ _ Hinv [] first rest v nv).
Qed.

Lemma sort_keeps_first_of_each_id_witness :
  ∃ out,
    topologicalSort duplicateNodes = Sorted out ∧
    NoDup (map id out) ∧
    (∀ n, In n out ↔ lookupNode duplicateNodes (id n) = Some n) ∧
    (∀ m, In m duplicateNodes → ∃ n, In n out ∧ id n = id m).
Proof.
  eexists. split; [by vm_compute|].
  exact (sort_keeps_first_of_each_id duplicateNodes _ eq_refl).
Defined.

Lemma sort_first_has_no_successor_witness :
  ∃ first rest,
    topologicalSort duplicateNodes = Sorted (first :: rest) ∧
    ∀ v, In v (connected first) → lookupNode duplicateNodes v = None.
Proof.
  eexists _, _. split; [by vm_compute|].
  exact (sort_first_has_no_successor duplicateNodes _ _ eq_refl).
Defined.

(** ** What one evaluation of a node does to the world *)

Lemma silent_ret {A} (a : A) : silent (ret a).
Proof. by intros w. Qed.

Lemma silent_throw {A} (e : Exn) : silent (@throw A e).
Proof. by intros w. Qed.

Lemma silent_bind {A B} (c : Eff A) (k : A → Eff B) :
  silent c → (∀ a, silent (k a)) → silent (bind c k).
Proof.
  intros Hc Hk w. unfold bind. specialize (Hc w).
  destruct (c w) as [[a|e] w1]; simpl in *; subst w1; [apply Hk|done].
Qed.

Lemma silent_getProp v key : silent (getProp v key).
Proof. intros w. unfold getProp. by destruct (isNullish v). Qed.

Lemma silent_nowISO env : silent (nowISO env).
Proof. by intros w. Qed.

Lemma silent_nowTime env : silent (nowTime env).
Proof. by intros w. Qed.

Lemma silent_throwIfError error : silent (throwIfError error).
Proof. intros w. unfold throwIfError. by destruct (truthy error). Qed.

Lemma silent_mapEff {A B} (f : A → Eff B) (l : list A) :
  (∀ x, silent (f x)) → silent (mapEff f l).
Proof.
  intros Hf. induction l as [|x l IH]; simpl; [apply silent_ret|].
  apply silent_bind; [done|]. intros y.
  apply silent_bind; [done|]. intros ys. apply silent_ret.
Qed.

Lemma silent_arrayMap v f : (∀ x, silent (f x)) → silent (arrayMap v f).
Proof.
  intros Hf. destruct v; try apply silent_throw. simpl.
  apply silent_bind; [by apply silent_mapEff|]. intros ys. apply silent_ret.
Qed.

(** Decomposes a computation without requests into its steps. *)
Ltac silent_steps :=
  repeat first
    [ apply silent_ret
    | apply silent_throw
    | apply silent_getProp
    | apply silent_nowISO
    | apply silent_nowTime
    | apply silent_throwIfError
    | apply silent_bind; [|intros ?]
    | apply silent_arrayMap; intros ?
    | match goal with
      | |- silent (match ?x with _ => _ end) => destruct x
      | |- silent (typeError _) => apply silent_throw
      | |- silent (orElseM ?a _) => unfold orElseM
      end ].

Lemma silent_lowerIncludes text filter : silent (lowerIncludes text filter).
Proof. unfold lowerIncludes. silent_steps. Qed.

Lemma silent_filterRejects env filter data : silent (filterRejects env filter data).
Proof. unfold filterRejects. silent_steps; try apply silent_lowerIncludes; silent_steps. Qed.

Lemma silent_filterLoop env filters data : silent (filterLoop env filters data).
Proof.
  induction filters as [|f rest IH]; simpl; [apply silent_ret|].
  apply silent_bind; [apply silent_filterRejects|].
  intros [|]; [apply silent_ret|done].
Qed.

Lemma silent_executeFilterNode env node context :
  silent (executeFilterNode env node context).
Proof. unfold executeFilterNode, iterate. silent_steps; apply silent_filterLoop. Qed.

Lemma remote_silent env name {A} (c : Eff A) : silent c → remote env name c.
Proof. intros Hc w. left. apply Hc. Qed.

Lemma remote_bind_silent env name {A B} (c : Eff A) (k : A → Eff B) :
  silent c → (∀ a, remote env name (k a)) → remote env name (bind c k).
Proof.
  intros Hc Hk w. unfold bind. specialize (Hc w).
  destruct (c w) as [[a|e] w1]; simpl in *; subst w1; [apply Hk|by left].
Qed.

(** The one request of a handler, followed by [if (error) throw error]. *)
Lemma remote_invoke env name body {B} (k : JsVal → Eff B) :
  (∀ response, silent (k response)) →
  remote env name
    (bind (invoke env name body)
       (λ '(response, error), bind (throwIfError error) (λ _, k response))).
Proof.
  intros Hk w. right. exists body. unfold bind, invoke, throwIfError. simpl.
  destruct (invokeResponse env w name body) as [response error]. simpl.
  destruct (truthy error) eqn:Herr; simpl.
  - done.
  - split; [|done]. specialize (Hk response (logCall name body w)).
    destruct (k response (logCall name body w)) as [[r|e] w1]; simpl in *; by subst.
Qed.

(** Runs through the silent steps of a handler up to its request. *)
Ltac remote_steps :=
  repeat first
    [ apply remote_invoke; intros ?
    | apply remote_bind_silent; [silent_steps|intros ?]
    | match goal with
      | |- remote _ _ (match ?x with _ => _ end) => destruct x
      | |- remote _ _ (orElseM ?a _) => unfold orElseM
      end ];
  silent_steps.

Lemma executeNode_remote env node context :
  match functionOf (type node) with
  | Some name => remote env name (executeNode env node context)
  | None => silent (executeNode env node context)
  end.
Proof.
  unfold executeNode, functionOf.
  repeat match goal with
         | |- context [String.eqb (type node) ?s] =>
             destruct (String.eqb (type node) s); cbv iota
         end.
  - apply silent_ret.
  - unfold executeNewsDiscoveryNode. remote_steps.
  - unfold executeRssAggregatorNode. remote_steps.
  - unfold executeGoogleScholarNode. remote_steps.
  - unfold executePerplexityResearchNode. remote_steps.
  - unfold executeMultiSourceSynthesizerNode. remote_steps.
  - unfold executeAiProcessorNode. remote_steps.
  - apply silent_executeFilterNode.
  - unfold executePublisherNode. remote_steps.
  - apply silent_ret.
Qed.

Lemma executeNode_calls env node context w :
  calls (snd (executeNode env node context w)) = calls w ∨
  ∃ name body,
    functionOf (type node) = Some name ∧
    snd (executeNode env node context w) = logCall name body w ∧
    (truthy (snd (invokeResponse env w name body)) = true →
     fst (executeNode env node context w)
       = Throw (JsThrown (snd (invokeResponse env w name body)))).
Proof.
  pose proof (executeNode_remote env node context) as H.
  destruct (functionOf (type node)) as [name|].
  - destruct (H w) as [->|(body & Hw & Herr)]; [by left|].
    right. by exists name, body.
  - left. by rewrite (H w).
Qed.

(** X4. One evaluation of [executeNode] sends nothing to the store, and
    either leaves the list of requests as it is or adds exactly one request,
    to the function of the node's type: there is no retry and no second
    request. *)
Theorem executeNode_at_most_one_request env node context w :
  storeOps (snd (executeNode env node context w)) = storeOps w ∧
  created (snd (executeNode env node context w)) = created w ∧
  (calls (snd (executeNode env node context w)) = calls w ∨
   ∃ name body,
     functionOf (type node) = Some name ∧
     calls (snd (executeNode env node context w)) = calls w ++ [(name, body)]).
Proof.
  destruct (executeNode_calls env node context w) as [H|(name & body & Hf & Hw & _)].
  - pose proof (executeNode_remote env node context) as Hr.
    destruct (functionOf (type node)) as [name|].
    + destruct (Hr w) as [->|(body & -> & _)]; [by auto|].
      split; [done|]. split; [done|]. right. by exists name, body.
    + rewrite (Hr w). by auto.
  - rewrite Hw. split; [done|]. split; [done|]. right. by exists name, body.
Qed.

(** X5. Errors of a collaborator propagate out of the handler: if the
    evaluation sent the request [(name, body)] and the answer to it carries an
    error, [executeNode] throws that error value; the fan-out then drops the
    context and keeps [newContexts] as it was. *)
Theorem remote_error_is_thrown env node context w name body :
  calls (snd (executeNode env node context w)) = calls w ++ [(name, body)] →
  truthy (snd (invokeResponse env w name body)) = true →
  fst (executeNode env node context w)
    = Throw (JsThrown (snd (invokeResponse env w name body))) ∧
  ∀ newContexts,
    fst (processContext env node newContexts context w) = Normal newContexts.
Proof.
  intros Hcalls Herr.
  assert (Hthrow : fst (executeNode env node context w)
                   = Throw (JsThrown (snd (invokeResponse env w name body)))).
  { destruct (executeNode_calls env node context w) as [H|(name' & body' & _ & Hw & Ht)].
    - rewrite H in Hcalls. symmetry in Hcalls.
      rewrite <- (app_nil_r (calls w)) in Hcalls at 2.
      by apply app_inv_head in Hcalls.
    - rewrite Hw in Hcalls. simpl in Hcalls. apply app_inv_head in Hcalls.
      injection Hcalls as -> ->. by apply Ht. }
  split; [done|]. intros newContexts.
  destruct (executeNode env node context w) as [r w1] eqn:Hrun. simpl in Hthrow. subst r.
  by rewrite (processContext_Throw _ _ _ _ _ _ _ Hrun).
Qed.

Lemma remote_error_is_thrown_witness :
  ∃ body,
    calls (snd (executeNode sampleEnv rssNode sampleRoot emptyWorld))
      = calls emptyWorld ++ [("rss-aggregator", body)] ∧
    truthy (snd (invokeResponse sampleEnv emptyWorld "rss-aggregator" body)) = true ∧
    fst (executeNode sampleEnv rssNode sampleRoot emptyWorld)
      = Throw (JsThrown (snd (invokeResponse sampleEnv emptyWorld "rss-aggregator" body))) ∧
    ∀ newContexts,
      fst (processContext sampleEnv rssNode newContexts sampleRoot emptyWorld)
        = Normal newContexts.
Proof.
  eexists. split; [by vm_compute|]. split; [reflexivity|].
  exact (remote_error_is_thrown sampleEnv rssNode sampleRoot emptyWorld _ _ eq_refl eq_refl).
Defined.

Lemma executeNode_world env node context w :
  snd (executeNode env node context w) = w ∨
  ∃ name body,
    functionOf (type node) = Some name ∧
    snd (executeNode env node context w) = logCall name body w.
Proof.
  pose proof (executeNode_remote env node context) as H.
  destruct (functionOf (type node)) as [name|]; [|by left].
  destruct (H w) as [Hw|(body & Hw & _)]; [by left|].
  right. by exists name, body.
Qed.

Lemma processContext_calls env node acc context w :
  storeOps (snd (processContext env node acc context w)) = storeOps w ∧
  (calls (snd (processContext env node acc context w)) = calls w ∨
   ∃ name body,
     functionOf (type node) = Some name ∧
     calls (snd (processContext env node acc context w)) = calls w ++ [(name, body)]).
Proof.
  destruct (executeNode env node context w) as [[r|e] w1] eqn:Hrun.
  - rewrite (processContext_Normal _ _ acc _ _ _ _ Hrun). simpl.
    destruct (executeNode_world env node context w) as [H|(name & body & Hf & H)];
      rewrite Hrun in H; simpl in H; subst w1; (split; [done|]);
      [by left|right; by exists name, body].
  - rewrite (processContext_Throw _ _ acc _ _ _ _ Hrun). simpl.
    destruct (executeNode_world env node context w) as [H|(name & body & Hf & H)];
      rewrite Hrun in H; simpl in H; subst w1; (split; [done|]);
      [by left|right; by exists name, body].
Qed.

(** X6. Processing a generation at a node sends at most one request per
    context, all to the function of the node's type, and nothing to the
    store. *)
Theorem one_request_per_context env node contexts : ∀ newContexts w,
  ∃ sent,
    calls (snd (processContexts env node contexts newContexts w)) = calls w ++ sent ∧
    length sent ≤ length contexts ∧
    (∀ name body, In (name, body) sent → functionOf (type node) = Some name) ∧
    storeOps (snd (processContexts env node contexts newContexts w)) = storeOps w.
Proof.
  induction contexts as [|c rest IH]; intros acc w; simpl.
  - exists []. rewrite app_nil_r. split; [done|]. split; [done|]. split; [|done].
    by intros ? ? [].
  - unfold bind.
    destruct (processContext_total env node acc c w) as (acc1 & w1 & Hstep).
    pose proof (processContext_calls env node acc c w) as [Hstore Hcalls].
    rewrite Hstep in *. simpl in *.
    destruct (IH acc1 w1) as (sent & Hsent & Hlen & Hnames & Hst).
    destruct Hcalls as [Hsame|(name & body & Hf & Hone)].
    + exists sent. rewrite Hsent, Hsame, Hst, Hstore. repeat split; [lia|done].
    + exists ((name, body) :: sent). rewrite Hsent, Hone, Hst, Hstore, <- app_assoc.
      repeat split; [simpl; lia|].
      intros n b [[= <- <-]|Hin]; [done|by eapply Hnames].
Qed.

(** ** The coordinator at its edges *)

(** X7. When the insert answers with an error, [executeWorkflow] throws that
    error value at once: the store has received the insert and nothing else
    (no update to failed), no context is built and no node is run. *)
Theorem insert_error_aborts env workflowId nodes triggerData w execution error :
  insertResponse env w executionsTable (initialRecord env workflowId w) = (execution, error) →
  truthy error = true →
  executeWorkflow env workflowId nodes triggerData w =
    (Throw (JsThrown error),
     mkWorld (storeOps w ++ [OpInsert executionsTable (initialRecord env workflowId w)])
             (calls w) (created w)).
Proof.
  intros Hins Herr. unfold executeWorkflow, bind, storeInsert, throwIfError. simpl.
  rewrite Hins. simpl. by rewrite Herr.
Qed.

Lemma insert_error_aborts_witness :
  ∃ execution error,
    insertResponse refusingEnv emptyWorld executionsTable
      (initialRecord refusingEnv "wf" emptyWorld) = (execution, error) ∧
    truthy error = true ∧
    executeWorkflow refusingEnv "wf" pipelineNodes JUndefined emptyWorld =
      (Throw (JsThrown error),
       mkWorld (storeOps emptyWorld ++
                  [OpInsert executionsTable (initialRecord refusingEnv "wf" emptyWorld)])
               (calls emptyWorld) (created emptyWorld)).
Proof.
  eexists _, _. split; [reflexivity|]. split; [reflexivity|].
  exact (insert_error_aborts refusingEnv "wf" pipelineNodes JUndefined emptyWorld _ _
           eq_refl eq_refl).
Defined.

(** X8. A workflow without nodes completes: the only final context is the
    root, whose payload is the trigger data, or the empty object when that is
    missing or falsy; the result holds one context and this payload, and no
    collaborator function is called. *)
Theorem empty_workflow_completes env workflowId triggerData w execution error :
  insertResponse env w executionsTable (initialRecord env workflowId w) = (execution, error) →
  truthy error = false → isNullish execution = false →
  ∃ w',
    executeWorkflow env workflowId [] triggerData w =
      (Normal (JArr [JObj (setProp (spreadProps execution) "status" (JStr "completed"))]),
       w') ∧
    calls w' = calls w ∧
    ∃ completed_at,
      last (storeOps w') =
        Some (OpUpdate executionsTable
                (JObj [("status", JStr "completed");
                       ("completed_at", completed_at);
                       ("result",
                        JObj [("contexts", JNum 1);
                              ("final_results",
                               JArr [if truthy triggerData then triggerData
                                     else JObj []])])])
                "id" (readProp execution "id")).
Proof.
  intros Hins Herr Hrow. eexists. split.
  - eapply (executeWorkflow_completed _ _ [] triggerData _ _ _ Hins []);
      [done|done|reflexivity|reflexivity].
  - split; [done|]. eexists. simpl. rewrite last_snoc. reflexivity.
Qed.

Lemma empty_workflow_completes_witness :
  ∃ execution error,
    insertResponse sampleEnv emptyWorld executionsTable
      (initialRecord sampleEnv "wf" emptyWorld) = (execution, error) ∧
    truthy error = false ∧ isNullish execution = false ∧
    ∃ w',
      executeWorkflow sampleEnv "wf" [] (JStr "") emptyWorld =
        (Normal (JArr [JObj (setProp (spreadProps execution) "status" (JStr "completed"))]),
         w') ∧
      calls w' = calls emptyWorld ∧
      ∃ completed_at,
        last (storeOps w') =
          Some (OpUpdate executionsTable
                  (JObj [("status", JStr "completed");
                         ("completed_at", completed_at);
                         ("result",
                          JObj [("contexts", JNum 1);
                                ("final_results",
                                 JArr [if truthy (JStr "") then JStr "" else JObj []])])])
                  "id" (readProp execution "id")).
Proof.
  eexists _, _. split; [reflexivity|]. split; [reflexivity|]. split; [reflexivity|].
  exact (empty_workflow_completes sampleEnv "wf" (JStr "") emptyWorld _ _
           eq_refl eq_refl eq_refl).
Defined.

(** ** Content sources *)

Lemma assocGet_setProp fields key v key' :
  assocGet (setProp fields key v) key' =
  if String.eqb key key' then v else assocGet fields key'.
Proof.
  induction fields as [|[k old] rest IH]; simpl.
  - by destruct (String.eqb key key').
  - destruct (String.eqb_spec k key) as [->|Hne]; simpl.
    + by destruct (String.eqb key key').
    + rewrite IH. destruct (String.eqb_spec k key') as [->|Hne'].
      * by rewrite (proj2 (String.eqb_neq key key')).
      * done.
Qed.

Lemma mapEff_pure {A B} (g : A → B) (l : list A) w :
  mapEff (λ x w0, (Normal (g x), w0)) l w = (Normal (map g l), w).
Proof.
  induction l as [|x l IH]; simpl; [done|]. unfold bind. by rewrite IH.
Qed.

(** What [items.map(item => ({...item, source_type, execution_context}))]
    gives. *)
Lemma tagged_items sourceType contextId items :
  let results :=
    map (λ item, JObj (setProp (setProp (spreadProps item)
                                  "source_type" (JStr sourceType))
                         "execution_context" contextId)) items in
  length results = length items ∧
  ∀ index item, items !! index = Some item →
    ∃ result,
      results !! index = Some result ∧
      readProp result "source_type" = JStr sourceType ∧
      readProp result "execution_context" = contextId ∧
      ∀ key, key ≠ "source_type" → key ≠ "execution_context" →
             readProp result key = assocGet (spreadProps item) key.
Proof.
  intros results. split; [apply length_map|].
  intros index item Hitem. eexists. split.
  { unfold results. change (map ?f ?l) with (f <$> l).
    by rewrite list_lookup_fmap, Hitem. }
  simpl. rewrite !assocGet_setProp. simpl. split; [done|]. split; [done|].
  intros key Hst Hec. rewrite !assocGet_setProp.
  rewrite (proj2 (String.eqb_neq "execution_context" key)) by done.
  by rewrite (proj2 (String.eqb_neq "source_type" key)).
Qed.

Lemma executeNode_news env node context :
  type node = "news-discovery" →
  executeNode env node context = executeNewsDiscoveryNode env node context.
Proof. intros H. unfold executeNode. by rewrite H. Qed.

(** X9. A news-discovery node whose collaborator answers without error
    returns one result per found article, in order (none when [articles] is
    missing or empty, so that the branch ends without error): each is the
    article with [source_type] set to [news_discovery] and [execution_context]
    set to the context's id, every other property being kept. *)
Theorem news_discovery_results env node context w response error items :
  type node = "news-discovery" → isNullish (config node) = false →
  (∀ body, invokeResponse env w "news-discovery" body = (response, error)) →
  truthy error = false → isNullish response = false →
  orElse (readProp response "articles") (JArr []) = JArr items →
  ∃ results w',
    executeNode env node context w = (Normal (JArr results), w') ∧
    length results = length items ∧
    ∀ index item, items !! index = Some item →
      ∃ result,
        results !! index = Some result ∧
        readProp result "source_type" = JStr "news_discovery" ∧
        readProp result "execution_context" = executionId context ∧
        ∀ key, key ≠ "source_type" → key ≠ "execution_context" →
               readProp result key = assocGet (spreadProps item) key.
Proof.
  intros Htype Hconfig Hresp Herr Hdata Hitems.
  rewrite (executeNode_news _ _ _ Htype).
  unfold executeNewsDiscoveryNode, bind, nowTime, getProp, invoke, throwIfError, ret.
  rewrite Hconfig.
  repeat match goal with
         | |- context [strictEqStr (readProp (config node) "timeRange") ?s] =>
             destruct (strictEqStr (readProp (config node) "timeRange") s)
         end.
  all: cbn beta iota zeta; rewrite Hresp; cbn beta iota zeta; rewrite Herr, Hdata.
  all: cbn beta iota zeta; rewrite Hitems.
  all: destruct items as [|item items]; eexists _, _; (split; [|apply tagged_items]).
  all: try reflexivity.
  all: simpl; unfold bind; rewrite mapEff_pure; reflexivity.
Qed.

Lemma news_discovery_results_witness :
  ∃ response error items,
    type discoveryNode = "news-discovery" ∧ isNullish (config discoveryNode) = false ∧
    (∀ body, invokeResponse sampleEnv emptyWorld "news-discovery" body = (response, error)) ∧
    truthy error = false ∧ isNullish response = false ∧
    orElse (readProp response "articles") (JArr []) = JArr items ∧
    ∃ results w',
      executeNode sampleEnv discoveryNode sampleRoot emptyWorld = (Normal (JArr results), w') ∧
      length results = length items ∧
      ∀ index item, items !! index = Some item →
        ∃ result,
          results !! index = Some result ∧
          readProp result "source_type" = JStr "news_discovery" ∧
          readProp result "execution_context" = executionId sampleRoot ∧
          ∀ key, key ≠ "source_type" → key ≠ "execution_context" →
                 readProp result key = assocGet (spreadProps item) key.
Proof.
  eexists _, _, _. split; [reflexivity|]. split; [reflexivity|].
  assert (Hresp : ∀ body, invokeResponse sampleEnv emptyWorld "news-discovery" body
                          = invokeResponse sampleEnv emptyWorld "news-discovery" JNull)
    by reflexivity.
  split; [exact Hresp|]. split; [reflexivity|]. split; [reflexivity|].
  split; [reflexivity|].
  exact (news_discovery_results sampleEnv discoveryNode sampleRoot emptyWorld _ _ _
           eq_refl eq_refl Hresp eq_refl eq_refl eq_refl).
Defined.

Lemma executeNode_rss env node context :
  type node = "rss-aggregator" →
  executeNode env node context = executeRssAggregatorNode env node context.
Proof. intros H. unfold executeNode. by rewrite H. Qed.

(** X10. An RSS node whose collaborator answers without error returns one
    result per item, in order (none when [items] is missing or empty): the
    item with [source_type] set to [rss] and [execution_context] set to the
    context's id, every other property being kept. *)
Theorem rss_results env node context w response error items :
  type node = "rss-aggregator" → isNullish (config node) = false →
  (∀ body, invokeResponse env w "rss-aggregator" body = (response, error)) →
  truthy error = false → isNullish response = false →
  orElse (readProp response "items") (JArr []) = JArr items →
  ∃ results w',
    executeNode env node context w = (Normal (JArr results), w') ∧
    length results = length items ∧
    ∀ index item, items !! index = Some item →
      ∃ result,
        results !! index = Some result ∧
        readProp result "source_type" = JStr "rss" ∧
        readProp result "execution_context" = executionId context ∧
        ∀ key, key ≠ "source_type" → key ≠ "execution_context" →
               readProp result key = assocGet (spreadProps item) key.
Proof.
  intros Htype Hconfig Hresp Herr Hdata Hitems.
  rewrite (executeNode_rss _ _ _ Htype).
  unfold executeRssAggregatorNode, bind, getProp, invoke, throwIfError, ret.
  rewrite Hconfig. cbn beta iota zeta. rewrite Hresp. cbn beta iota zeta.
  rewrite Herr, Hdata. cbn beta iota zeta. rewrite Hitems.
  eexists _, _. split; [|apply tagged_items].
  simpl. unfold bind. rewrite mapEff_pure. reflexivity.
Qed.

Lemma rss_results_witness :
  ∃ items,
    type rssNode = "rss-aggregator" ∧ isNullish (config rssNode) = false ∧
    (∀ body, invokeResponse (answeringEnv feedResponse) emptyWorld "rss-aggregator" body
             = (feedResponse, JNull)) ∧
    truthy JNull = false ∧ isNullish feedResponse = false ∧
    orElse (readProp feedResponse "items") (JArr []) = JArr items ∧
    ∃ results w',
      executeNode (answeringEnv feedResponse) rssNode sampleRoot emptyWorld
        = (Normal (JArr results), w') ∧
      length results = length items ∧
      ∀ index item, items !! index = Some item →
        ∃ result,
          results !! index = Some result ∧
          readProp result "source_type" = JStr "rss" ∧
          readProp result "execution_context" = executionId sampleRoot ∧
          ∀ key, key ≠ "source_type" → key ≠ "execution_context" →
                 readProp result key = assocGet (spreadProps item) key.
Proof.
  eexists. split; [reflexivity|]. split; [reflexivity|].
  assert (Hresp : ∀ body, invokeResponse (answeringEnv feedResponse) emptyWorld
                            "rss-aggregator" body = (feedResponse, JNull)) by reflexivity.
  split; [exact Hresp|]. split; [reflexivity|]. split; [reflexivity|].
  split; [reflexivity|].
  exact (rss_results (answeringEnv feedResponse) rssNode sampleRoot emptyWorld _ _ _
           eq_refl eq_refl Hresp eq_refl eq_refl eq_refl).
Defined.

Lemma mapEff_all_normal {A B} (f : A → Eff B) (g : A → B) (l : list A) w :
  (∀ x, In x l → f x w = (Normal (g x), w)) →
  mapEff f l w = (Normal (map g l), w).
Proof.
  induction l as [|x l IH]; intros Hf; simpl; [done|]. unfold bind.
  rewrite (Hf x) by by left. rewrite IH; [done|]. intros y Hy. apply Hf. by right.
Qed.

Lemma mapEff_one_throws {A B} (f : A → Eff B) (e : Exn) (l : list A) w :
  (∀ x, In x l → f x w = (Throw e, w) ∨ ∃ y, f x w = (Normal y, w)) →
  (∃ x, In x l ∧ f x w = (Throw e, w)) →
  mapEff f l w = (Throw e, w).
Proof.
  induction l as [|x l IH]; intros Hall (bad & Hin & Hbad); [done|]. simpl. unfold bind.
  destruct (Hall x (or_introl eq_refl)) as [->|[y Hy]]; [done|]. rewrite Hy.
  rewrite IH; [done| |].
  - intros z Hz. apply Hall. by right.
  - destruct Hin as [->|Hin]; [congruence|]. by exists bad.
Qed.

Lemma executeNode_scholar env node context :
  type node = "google-scholar-search" →
  executeNode env node context = executeGoogleScholarNode env node context.
Proof. intros H. unfold executeNode. by rewrite H. Qed.

Lemma scholar_shape env contextId w' papers :
  let results :=
    map (λ paper,
           JObj [("title", readProp paper "title");
                 ("content", orElse (readProp paper "abstract") (JStr ""));
                 ("description", orElse (readProp paper "abstract") (JStr ""));
                 ("url", orElse (readProp paper "url") (JStr ""));
                 ("source_type", JStr "academic");
                 ("source_url", orElse (readProp paper "url") (JStr ""));
                 ("published_date", JStr (toISOString env (currentTime env w')));
                 ("authors", match readProp paper "authors" with
                             | JArr _ => readProp paper "authors"
                             | _ => JArr []
                             end);
                 ("citations", orElse (readProp paper "citations") (JNum 0));
                 ("venue", orElse (readProp paper "venue") (JStr ""));
                 ("execution_context", contextId)]) papers in
  length results = length papers ∧
  ∀ index paper, papers !! index = Some paper →
    ∃ result,
      results !! index = Some result ∧
      readProp result "title" = readProp paper "title" ∧
      readProp result "content" = orElse (readProp paper "abstract") (JStr "") ∧
      readProp result "description" = orElse (readProp paper "abstract") (JStr "") ∧
      readProp result "source_type" = JStr "academic" ∧
      readProp result "published_date" = JStr (toISOString env (currentTime env w')) ∧
      readProp result "authors" =
        match readProp paper "authors" with
        | JArr authors => JArr authors
        | _ => JArr []
        end ∧
      readProp result "execution_context" = contextId.
Proof.
  intros results. split; [apply length_map|].
  intros index paper Hp. eexists. split.
  { unfold results. change (map ?f ?l) with (f <$> l). by rewrite list_lookup_fmap, Hp. }
  simpl. repeat split. by destruct (readProp paper "authors").
Qed.

(** X11. An academic-search node whose collaborator answers without error
    with papers that are all objects returns one result per paper, in order:
    title, content and description come from the paper's title and abstract
    (the empty string without abstract), [source_type] is [academic],
    [authors] is the paper's when that is an array and the empty array
    otherwise, and [published_date] is the time of processing, not a date of
    the paper. *)
Theorem scholar_results env node context w response error papers :
  type node = "google-scholar-search" → isNullish (config node) = false →
  truthy (readProp (config node) "query") = true ∨ isNullish (data context) = false →
  (∀ body, invokeResponse env w "google-scholar-search" body = (response, error)) →
  truthy error = false → isNullish response = false →
  orElse (readProp response "papers") (JArr []) = JArr papers →
  (∀ paper, In paper papers → isNullish paper = false) →
  ∃ results w',
    executeNode env node context w = (Normal (JArr results), w') ∧
    length results = length papers ∧
    ∀ index paper, papers !! index = Some paper →
      ∃ result,
        results !! index = Some result ∧
        readProp result "title" = readProp paper "title" ∧
        readProp result "content" = orElse (readProp paper "abstract") (JStr "") ∧
        readProp result "description" = orElse (readProp paper "abstract") (JStr "") ∧
        readProp result "source_type" = JStr "academic" ∧
        readProp result "published_date" = JStr (toISOString env (currentTime env w')) ∧
        readProp result "authors" =
          match readProp paper "authors" with
          | JArr authors => JArr authors
          | _ => JArr []
          end ∧
        readProp result "execution_context" = executionId context.
Proof.
  intros Htype Hconfig Hquery Hresp Herr Hdata Hpapers Hobjects.
  rewrite (executeNode_scholar _ _ _ Htype).
  unfold executeGoogleScholarNode, orElseM.
  unfold bind, getProp, invoke, throwIfError, ret, nowISO.
  rewrite Hconfig.
  destruct (truthy (readProp (config node) "query")) eqn:Htq;
    [|destruct Hquery as [?|Hd]; [done|rewrite Hd]].
  all: cbn beta iota zeta.
  all: rewrite Hresp; cbn beta iota zeta; rewrite Herr, Hdata.
  all: cbn beta iota zeta; rewrite Hpapers.
  all: destruct papers as [|paper papers];
    [eexists _, _; split; [reflexivity|]; split; [done|]; by intros index paper|].
  all: cbn -[mapEff map Z.of_nat]; unfold bind.
  all: change (Z.of_nat (S (length papers))) with (Z.pos (Pos.of_succ_nat (length papers)));
    cbn beta iota.
  all: erewrite (mapEff_all_normal _ _ (paper :: papers));
    [|intros p Hp; rewrite (Hobjects p Hp); reflexivity].
  all: eexists _, _; split; [reflexivity|]; apply scholar_shape.
Qed.

Lemma scholar_results_witness :
  ∃ papers,
    type scholarNode = "google-scholar-search" ∧ isNullish (config scholarNode) = false ∧
    (truthy (readProp (config scholarNode) "query") = true ∨
     isNullish (data sampleRoot) = false) ∧
    (∀ body, invokeResponse (answeringEnv (papersResponse [samplePaper])) emptyWorld
               "google-scholar-search" body = (papersResponse [samplePaper], JNull)) ∧
    truthy JNull = false ∧ isNullish (papersResponse [samplePaper]) = false ∧
    orElse (readProp (papersResponse [samplePaper]) "papers") (JArr []) = JArr papers ∧
    (∀ paper, In paper papers → isNullish paper = false) ∧
    ∃ results w',
      executeNode (answeringEnv (papersResponse [samplePaper])) scholarNode sampleRoot
        emptyWorld = (Normal (JArr results), w') ∧
      length results = length papers ∧
      ∀ index paper, papers !! index = Some paper →
        ∃ result,
          results !! index = Some result ∧
          readProp result "title" = readProp paper "title" ∧
          readProp result "content" = orElse (readProp paper "abstract") (JStr "") ∧
          readProp result "description" = orElse (readProp paper "abstract") (JStr "") ∧
          readProp result "source_type" = JStr "academic" ∧
          readProp result "published_date" =
            JStr (toISOString (answeringEnv (papersResponse [samplePaper]))
                    (currentTime (answeringEnv (papersResponse [samplePaper])) w')) ∧
          readProp result "authors" =
            match readProp paper "authors" with
            | JArr authors => JArr authors
            | _ => JArr []
            end ∧
          readProp result "execution_context" = executionId sampleRoot.
Proof.
  eexists. split; [reflexivity|]. split; [reflexivity|].
  assert (Hq : truthy (readProp (config scholarNode) "query") = true ∨
               isNullish (data sampleRoot) = false) by (by left).
  split; [exact Hq|].
  assert (Hresp : ∀ body, invokeResponse (answeringEnv (papersResponse [samplePaper]))
                    emptyWorld "google-scholar-search" body
                    = (papersResponse [samplePaper], JNull)) by reflexivity.
  split; [exact Hresp|]. split; [reflexivity|]. split; [reflexivity|].
  split; [reflexivity|].
  assert (Hobj : ∀ paper, In paper [samplePaper] → isNullish paper = false).
  { intros paper [<-|[]]. reflexivity. }
  split; [exact Hobj|].
  exact (scholar_results (answeringEnv (papersResponse [samplePaper])) scholarNode sampleRoot
           emptyWorld _ _ _ eq_refl eq_refl Hq Hresp eq_refl eq_refl eq_refl Hobj).
Defined.

(** X12. One broken entry loses the batch: if the papers answered to an
    academic-search node hold a null or undefined entry, the node throws a
    TypeError after its request has been sent, so none of the papers reaches
    the next generation. *)
Theorem scholar_broken_paper_throws env node context w response error papers :
  type node = "google-scholar-search" → isNullish (config node) = false →
  truthy (readProp (config node) "query") = true ∨ isNullish (data context) = false →
  (∀ body, invokeResponse env w "google-scholar-search" body = (response, error)) →
  truthy error = false → isNullish response = false →
  orElse (readProp response "papers") (JArr []) = JArr papers →
  (∃ paper, In paper papers ∧ isNullish paper = true) →
  (∃ body, executeNode env node context w =
             (Throw (JsError true "Cannot read properties of null or undefined"),
              logCall "google-scholar-search" body w)) ∧
  ∀ newContexts, fst (processContext env node newContexts context w) = Normal newContexts.
Proof.
  intros Htype Hconfig Hquery Hresp Herr Hdata Hpapers Hbroken.
  assert (Hrun : ∃ body, executeNode env node context w =
             (Throw (JsError true "Cannot read properties of null or undefined"),
              logCall "google-scholar-search" body w)).
  { rewrite (executeNode_scholar _ _ _ Htype).
    unfold executeGoogleScholarNode, orElseM.
    unfold bind, getProp, invoke, throwIfError, ret, nowISO.
    rewrite Hconfig.
    destruct (truthy (readProp (config node) "query")) eqn:Htq;
      [|destruct Hquery as [?|Hd]; [done|rewrite Hd]].
    all: cbn beta iota zeta.
    all: rewrite Hresp; cbn beta iota zeta; rewrite Herr, Hdata.
    all: cbn beta iota zeta; rewrite Hpapers.
    all: destruct papers as [|paper papers]; [by destruct Hbroken as (? & [] & _)|].
    all: cbn -[mapEff map Z.of_nat]; unfold bind.
    all: change (Z.of_nat (S (length papers))) with (Z.pos (Pos.of_succ_nat (length papers)));
      cbn beta iota.
    all: erewrite (mapEff_one_throws _ _ (paper :: papers)); [by eexists| |].
    all: try (intros p Hp; destruct (isNullish p); [by left|right; by eexists]).
    all: destruct Hbroken as (bad & Hin & Hbad); exists bad; split; [done|];
      by rewrite Hbad. }
  split; [done|]. intros newContexts. destruct Hrun as [body Hrun].
  by rewrite (processContext_Throw _ _ _ _ _ _ _ Hrun).
Qed.

Lemma scholar_broken_paper_throws_witness :
  ∃ papers,
    type scholarNode = "google-scholar-search" ∧ isNullish (config scholarNode) = false ∧
    (truthy (readProp (config scholarNode) "query") = true ∨
     isNullish (data sampleRoot) = false) ∧
    (∀ body, invokeResponse brokenPapersEnv emptyWorld "google-scholar-search" body
             = (papersResponse [samplePaper; JNull], JNull)) ∧
    truthy JNull = false ∧ isNullish (papersResponse [samplePaper; JNull]) = false ∧
    orElse (readProp (papersResponse [samplePaper; JNull]) "papers") (JArr []) = JArr papers ∧
    (∃ paper, In paper papers ∧ isNullish paper = true) ∧
    (∃ body, executeNode brokenPapersEnv scholarNode sampleRoot emptyWorld =
               (Throw (JsError true "Cannot read properties of null or undefined"),
                logCall "google-scholar-search" body emptyWorld)) ∧
    ∀ newContexts,
      fst (processContext brokenPapersEnv scholarNode newContexts sampleRoot emptyWorld)
        = Normal newContexts.
Proof.
  eexists. split; [reflexivity|]. split; [reflexivity|].
  assert (Hq : truthy (readProp (config scholarNode) "query") = true ∨
               isNullish (data sampleRoot) = false) by (by left).
  split; [exact Hq|].
  assert (Hresp : ∀ body, invokeResponse brokenPapersEnv emptyWorld "google-scholar-search" body
                    = (papersResponse [samplePaper; JNull], JNull)) by reflexivity.
  split; [exact Hresp|]. split; [reflexivity|]. split; [reflexivity|].
  split; [reflexivity|].
  assert (Hbad : ∃ paper, In paper [samplePaper; JNull] ∧ isNullish paper = true).
  { exists JNull. split; [right; by left|reflexivity]. }
  split; [exact Hbad|].
  exact (scholar_broken_paper_throws brokenPapersEnv scholarNode sampleRoot emptyWorld _ _ _
           eq_refl eq_refl Hq Hresp eq_refl eq_refl eq_refl Hbad).
Defined.

Lemma bind_normal {A B} (c : Eff A) (k : A → Eff B) w a w1 :
  c w = (Normal a, w1) → bind c k w = k a w1.
Proof. intros H. unfold bind. by rewrite H. Qed.

Lemma getProp_ok v key w :
  isNullish v = false → getProp v key w = (Normal (readProp v key), w).
Proof. intros H. unfold getProp. by rewrite H. Qed.

Lemma bind_invoke_world env name body {B} (k : JsVal * JsVal → Eff B) w :
  (∀ r, silent (k r)) → snd (bind (invoke env name body) k w) = logCall name body w.
Proof. intros Hk. unfold bind, invoke. apply Hk. Qed.

(** One step of a handler that returns normally. *)
Ltac step_bind :=
  erewrite bind_normal; [|first [reflexivity | apply getProp_ok; assumption]].

Ltac clash :=
  match goal with
  | H1 : strictEqStr ?v ?a = true, H2 : strictEqStr ?v ?b = true |- _ =>
      rewrite (strictEqStr_other v a b H1) in H2 by done; discriminate
  | H1 : ?x = false, H2 : ?x = true |- _ => congruence
  end.

(** X13. The request of a news-discovery node carries the time window the
    configuration asks for: for the presets [hour], [day], [week] and [month]
    a [fromDate] one hour, 24 hours, 7 days and 30 days before the time of
    the evaluation and no [toDate]; for [custom] the configured [fromDate] and
    [toDate]; for any other value no date at all, although the request then
    still names the range, [day] when none is configured. *)
Theorem news_discovery_time_window env node context w :
  type node = "news-discovery" → isNullish (config node) = false →
  ∃ body,
    calls (snd (executeNode env node context w)) = calls w ++ [("news-discovery", body)] ∧
    readProp body "timeRange" = orElse (readProp (config node) "timeRange") (JStr "day") ∧
    (strictEqStr (readProp (config node) "timeRange") "custom" = true →
       readProp body "fromDate" = readProp (config node) "fromDate" ∧
       readProp body "toDate" = readProp (config node) "toDate") ∧
    (strictEqStr (readProp (config node) "timeRange") "hour" = true →
       readProp body "fromDate" = JStr (toISOString env (currentTime env w - 3600000)) ∧
       readProp body "toDate" = JUndefined) ∧
    (strictEqStr (readProp (config node) "timeRange") "day" = true →
       readProp body "fromDate" = JStr (toISOString env (currentTime env w - 86400000)) ∧
       readProp body "toDate" = JUndefined) ∧
    (strictEqStr (readProp (config node) "timeRange") "week" = true →
       readProp body "fromDate" = JStr (toISOString env (currentTime env w - 604800000)) ∧
       readProp body "toDate" = JUndefined) ∧
    (strictEqStr (readProp (config node) "timeRange") "month" = true →
       readProp body "fromDate" = JStr (toISOString env (currentTime env w - 2592000000)) ∧
       readProp body "toDate" = JUndefined) ∧
    (strictEqStr (readProp (config node) "timeRange") "custom" = false →
     strictEqStr (readProp (config node) "timeRange") "hour" = false →
     strictEqStr (readProp (config node) "timeRange") "day" = false →
     strictEqStr (readProp (config node) "timeRange") "week" = false →
     strictEqStr (readProp (config node) "timeRange") "month" = false →
       readProp body "fromDate" = JUndefined ∧ readProp body "toDate" = JUndefined).
Proof.
  intros Htype Hconfig.
  rewrite (executeNode_news _ _ _ Htype). unfold executeNewsDiscoveryNode.
  step_bind. step_bind.
  destruct (strictEqStr (readProp (config node) "timeRange") "custom") eqn:Hcustom;
    [|destruct (strictEqStr (readProp (config node) "timeRange") "hour") eqn:Hhour;
      [|destruct (strictEqStr (readProp (config node) "timeRange") "day") eqn:Hday;
        [|destruct (strictEqStr (readProp (config node) "timeRange") "week") eqn:Hweek;
          [|destruct (strictEqStr (readProp (config node) "timeRange") "month")
              eqn:Hmonth]]]].
  1: erewrite bind_normal; [|step_bind; step_bind; reflexivity].
  2-6: step_bind.
  all: cbn beta iota zeta; do 4 step_bind.
  all: eexists; split;
    [rewrite bind_invoke_world; [reflexivity|intros [response error]; silent_steps]|].
  all: split; [reflexivity|].
  all: repeat split; intros; try discriminate; try clash; reflexivity.
Qed.

Lemma news_discovery_time_window_witness :
  type discoveryNode = "news-discovery" ∧ isNullish (config discoveryNode) = false ∧
  ∃ body,
    calls (snd (executeNode sampleEnv discoveryNode sampleRoot emptyWorld))
      = calls emptyWorld ++ [("news-discovery", body)] ∧
    readProp body "timeRange"
      = orElse (readProp (config discoveryNode) "timeRange") (JStr "day") ∧
    (strictEqStr (readProp (config discoveryNode) "timeRange") "custom" = true →
       readProp body "fromDate" = readProp (config discoveryNode) "fromDate" ∧
       readProp body "toDate" = readProp (config discoveryNode) "toDate") ∧
    (strictEqStr (readProp (config discoveryNode) "timeRange") "hour" = true →
       readProp body "fromDate"
         = JStr (toISOString sampleEnv (currentTime sampleEnv emptyWorld - 3600000)) ∧
       readProp body "toDate" = JUndefined) ∧
    (strictEqStr (readProp (config discoveryNode) "timeRange") "day" = true →
       readProp body "fromDate"
         = JStr (toISOString sampleEnv (currentTime sampleEnv emptyWorld - 86400000)) ∧
       readProp body "toDate" = JUndefined) ∧
    (strictEqStr (readProp (config discoveryNode) "timeRange") "week" = true →
       readProp body "fromDate"
         = JStr (toISOString sampleEnv (currentTime sampleEnv emptyWorld - 604800000)) ∧
       readProp body "toDate" = JUndefined) ∧
    (strictEqStr (readProp (config discoveryNode) "timeRange") "month" = true →
       readProp body "fromDate"
         = JStr (toISOString sampleEnv (currentTime sampleEnv emptyWorld - 2592000000)) ∧
       readProp body "toDate" = JUndefined) ∧
    (strictEqStr (readProp (config discoveryNode) "timeRange") "custom" = false →
     strictEqStr (readProp (config discoveryNode) "timeRange") "hour" = false →
     strictEqStr (readProp (config discoveryNode) "timeRange") "day" = false →
     strictEqStr (readProp (config discoveryNode) "timeRange") "week" = false →
     strictEqStr (readProp (config discoveryNode) "timeRange") "month" = false →
       readProp body "fromDate" = JUndefined ∧ readProp body "toDate" = JUndefined).
Proof.
  split; [reflexivity|]. split; [reflexivity|].
  exact (news_discovery_time_window sampleEnv discoveryNode sampleRoot emptyWorld
           eq_refl eq_refl).
Defined.

(** ** Enriching nodes and the publisher *)

Lemma enrichmentField_cases nodeType field :
  enrichmentField nodeType = Some field →
  (nodeType = "perplexity-research" ∧ field = "research_data") ∨
  (nodeType = "multi-source-synthesizer" ∧ field = "synthesized_content") ∨
  (nodeType = "ai-processor" ∧ field = "ai_content") ∨
  (nodeType = "publisher" ∧ field = "published_article").
Proof.
  unfold enrichmentField.
  destruct (String.eqb_spec nodeType "perplexity-research"); [intros [= <-]; by auto|].
  destruct (String.eqb_spec nodeType "multi-source-synthesizer"); [intros [= <-]; by auto|].
  destruct (String.eqb_spec nodeType "ai-processor"); [intros [= <-]; by auto 6|].
  destruct (String.eqb_spec nodeType "publisher"); [intros [= <-]; by auto 6|].
  done.
Qed.

(** Splits a run that returned normally along the tests it went through. *)
Ltac split_run H :=
  repeat match type of H with
         | context [if ?b then _ else _] => destruct b eqn:?; try discriminate H
         | context [invokeResponse ?e ?w ?n ?b] =>
             destruct (invokeResponse e w n b) as [? ?] eqn:?; cbn beta iota zeta in H
         end.

Lemma executeNode_perplexity env node context :
  type node = "perplexity-research" →
  executeNode env node context = executePerplexityResearchNode env node context.
Proof. intros H. unfold executeNode. by rewrite H. Qed.

Lemma executeNode_synthesizer env node context :
  type node = "multi-source-synthesizer" →
  executeNode env node context = executeMultiSourceSynthesizerNode env node context.
Proof. intros H. unfold executeNode. by rewrite H. Qed.

Lemma executeNode_processor env node context :
  type node = "ai-processor" →
  executeNode env node context = executeAiProcessorNode env node context.
Proof. intros H. unfold executeNode. by rewrite H. Qed.

Lemma executeNode_publisher env node context :
  type node = "publisher" →
  executeNode env node context = executePublisherNode env node context.
Proof. intros H. unfold executeNode. by rewrite H. Qed.

Lemma eqb_other (a key : string) : key ≠ a → String.eqb a key = false.
Proof. intros H. apply String.eqb_neq. congruence. Qed.

(** Reads the properties of a result built by [{...data, field: v, ...}]. *)
Ltac read_result Htype Hresp :=
  eexists _, _; split; [rewrite Htype; reflexivity|]; split; [reflexivity|];
  split; [rewrite Hresp; simpl; rewrite !assocGet_setProp; reflexivity|];
  split; [simpl; rewrite !assocGet_setProp; reflexivity|];
  intros key ? ? ?; simpl; rewrite !assocGet_setProp;
  by rewrite !eqb_other.

(** X14. An enriching node (research, synthesis, AI processing) and the
    publisher return, when they return, the payload they were given with the
    collaborator's answer stored under the node's field and
    [execution_context] set to the context's id; every other property of the
    payload is kept, [source_type] apart, and exactly one request was sent. *)
Theorem enrichment_keeps_payload env node context w result w' field :
  enrichmentField (type node) = Some field →
  executeNode env node context w = (Normal result, w') →
  ∃ name body,
    functionOf (type node) = Some name ∧
    w' = logCall name body w ∧
    readProp result field = fst (invokeResponse env w name body) ∧
    readProp result "execution_context" = executionId context ∧
    ∀ key, key ≠ field → key ≠ "execution_context" → key ≠ "source_type" →
           readProp result key = assocGet (spreadProps (data context)) key.
Proof.
  intros Hfield Hrun.
  apply enrichmentField_cases in Hfield
    as [[Htype ->]|[[Htype ->]|[[Htype ->]|[Htype ->]]]].
  - rewrite (executeNode_perplexity _ _ _ Htype) in Hrun.
    unfold executePerplexityResearchNode, orElseM in Hrun.
    unfold bind, getProp, invoke, throwIfError, ret, typeError, throw in Hrun.
    cbn beta iota zeta in Hrun. split_run Hrun.
    all: injection Hrun as <- <-;
      match goal with Hr : invokeResponse _ _ _ _ = _ |- _ => read_result Htype Hr end.
  - rewrite (executeNode_synthesizer _ _ _ Htype) in Hrun.
    unfold executeMultiSourceSynthesizerNode in Hrun.
    unfold bind, getProp, invoke, throwIfError, ret, typeError, throw in Hrun.
    cbn beta iota zeta in Hrun. split_run Hrun.
    all: injection Hrun as <- <-;
      match goal with Hr : invokeResponse _ _ _ _ = _ |- _ => read_result Htype Hr end.
  - rewrite (executeNode_processor _ _ _ Htype) in Hrun.
    unfold executeAiProcessorNode in Hrun.
    unfold bind, getProp, invoke, throwIfError, ret, typeError, throw in Hrun.
    cbn beta iota zeta in Hrun. split_run Hrun.
    all: injection Hrun as <- <-;
      match goal with Hr : invokeResponse _ _ _ _ = _ |- _ => read_result Htype Hr end.
  - rewrite (executeNode_publisher _ _ _ Htype) in Hrun.
    unfold executePublisherNode in Hrun.
    unfold bind, getProp, invoke, throwIfError, ret, typeError, throw in Hrun.
    cbn beta iota zeta in Hrun. split_run Hrun.
    all: injection Hrun as <- <-;
      match goal with Hr : invokeResponse _ _ _ _ = _ |- _ => read_result Htype Hr end.
Qed.

Lemma enrichment_keeps_payload_witness :
  ∃ result w',
    enrichmentField (type publisherNode) = Some "published_article" ∧
    executeNode sampleEnv publisherNode launchContext emptyWorld = (Normal result, w') ∧
    ∃ name body,
      functionOf (type publisherNode) = Some name ∧
      w' = logCall name body emptyWorld ∧
      readProp result "published_article"
        = fst (invokeResponse sampleEnv emptyWorld name body) ∧
      readProp result "execution_context" = executionId launchContext ∧
      ∀ key, key ≠ "published_article" → key ≠ "execution_context" → key ≠ "source_type" →
             readProp result key = assocGet (spreadProps (data launchContext)) key.
Proof.
  eexists _, _. split; [reflexivity|]. split; [by vm_compute|].
  exact (enrichment_keeps_payload sampleEnv publisherNode launchContext emptyWorld _ _ _
           eq_refl eq_refl).
Defined.

(** X15. Nothing is published or generated for a payload that is null or
    undefined: the publisher and the AI processor then throw a TypeError
    before any request is sent. *)
Theorem null_payload_sends_nothing env node context w :
  type node = "publisher" ∨ type node = "ai-processor" →
  isNullish (data context) = true →
  executeNode env node context w =
    (Throw (JsError true "Cannot read properties of null or undefined"), w).
Proof.
  intros [Htype|Htype] Hdata.
  - rewrite (executeNode_publisher _ _ _ Htype).
    unfold executePublisherNode, bind, getProp. by rewrite Hdata.
  - rewrite (executeNode_processor _ _ _ Htype).
    unfold executeAiProcessorNode, bind, getProp. rewrite Hdata.
    by destruct (isNullish (config node)).
Qed.

Lemma null_payload_sends_nothing_witness :
  (type publisherNode = "publisher" ∨ type publisherNode = "ai-processor") ∧
  isNullish (data brokenContext) = true ∧
  executeNode sampleEnv publisherNode brokenContext emptyWorld =
    (Throw (JsError true "Cannot read properties of null or undefined"), emptyWorld).
Proof.
  assert (H : type publisherNode = "publisher" ∨ type publisherNode = "ai-processor")
    by (by left).
  split; [exact H|]. split; [reflexivity|].
  exact (null_payload_sends_nothing sampleEnv publisherNode brokenContext emptyWorld
           H eq_refl).
Defined.

(** X16. The publisher sends exactly one request, whatever the answer: the
    article is published only when [autoPublish] is set and is a draft
    otherwise; the category is [AI Generated] and the reporter null when they
    are not configured; the document starts with a heading made of the
    payload's title, [Generated Article] when it has none. *)
Theorem publisher_request env node context w :
  type node = "publisher" →
  isNullish (data context) = false → isNullish (config node) = false →
  ∃ body text,
    calls (snd (executeNode env node context w))
      = calls w ++ [("create-article-from-ai", body)] ∧
    readProp body "status" =
      JStr (if truthy (readProp (config node) "autoPublish") then "published" else "draft") ∧
    readProp body "category" = orElse (readProp (config node) "category") (JStr "AI Generated") ∧
    readProp body "reporterId" = orElse (readProp (config node) "reporterId") JNull ∧
    readProp body "provider" = JStr "AI Processor" ∧
    readProp body "content" =
      JStr ("# " +:+
            toStringJs (orElse (readProp (data context) "title") (JStr "Generated Article"))
            +:+ newline +:+ newline +:+ text).
Proof.
  intros Htype Hdata Hconfig.
  rewrite (executeNode_publisher _ _ _ Htype). unfold executePublisherNode.
  do 8 (cbn zeta; step_bind). cbn zeta.
  eexists _, _. split;
    [rewrite bind_invoke_world; [reflexivity|intros [response error]; silent_steps]|].
  repeat split.
Qed.

Lemma publisher_request_witness :
  type autoPublisherNode = "publisher" ∧
  isNullish (data launchContext) = false ∧ isNullish (config autoPublisherNode) = false ∧
  ∃ body text,
    calls (snd (executeNode sampleEnv autoPublisherNode launchContext emptyWorld))
      = calls emptyWorld ++ [("create-article-from-ai", body)] ∧
    readProp body "status" =
      JStr (if truthy (readProp (config autoPublisherNode) "autoPublish")
            then "published" else "draft") ∧
    readProp body "category"
      = orElse (readProp (config autoPublisherNode) "category") (JStr "AI Generated") ∧
    readProp body "reporterId"
      = orElse (readProp (config autoPublisherNode) "reporterId") JNull ∧
    readProp body "provider" = JStr "AI Processor" ∧
    readProp body "content" =
      JStr ("# " +:+
            toStringJs (orElse (readProp (data launchContext) "title")
                          (JStr "Generated Article"))
            +:+ newline +:+ newline +:+ text).
Proof.
  split; [reflexivity|]. split; [reflexivity|]. split; [reflexivity|].
  exact (publisher_request sampleEnv autoPublisherNode launchContext emptyWorld
           eq_refl eq_refl eq_refl).
Defined.

(** ** The filter at its edges *)

Lemma executeNode_filter env node context :
  type node = "filter" →
  executeNode env node context = executeFilterNode env node context.
Proof. intros H. unfold executeNode. by rewrite H. Qed.

(** X17. A filter node whose configuration has no [filters], or an empty
    list, returns every payload unchanged, a null one included, and does
    nothing else. *)
Theorem filter_without_rules_passes env node context w :
  type node = "filter" → isNullish (config node) = false →
  truthy (readProp (config node) "filters") = false ∨
    readProp (config node) "filters" = JArr [] →
  executeNode env node context w = (Normal (data context), w).
Proof.
  intros Htype Hconfig Hnone. rewrite (executeNode_filter _ _ _ Htype).
  unfold executeFilterNode, bind, getProp. rewrite Hconfig. simpl.
  assert (orElse (readProp (config node) "filters") (JArr []) = JArr []) as ->.
  { unfold orElse. destruct Hnone as [-> | ->]; done. }
  done.
Qed.

Lemma filter_without_rules_passes_witness :
  type bareFilterNode = "filter" ∧ isNullish (config bareFilterNode) = false ∧
  (truthy (readProp (config bareFilterNode) "filters") = false ∨
     readProp (config bareFilterNode) "filters" = JArr []) ∧
  executeNode sampleEnv bareFilterNode brokenContext emptyWorld
    = (Normal (data brokenContext), emptyWorld).
Proof.
  assert (H : truthy (readProp (config bareFilterNode) "filters") = false ∨
              readProp (config bareFilterNode) "filters" = JArr []) by (by left).
  split; [reflexivity|]. split; [reflexivity|]. split; [exact H|].
  exact (filter_without_rules_passes sampleEnv bareFilterNode brokenContext emptyWorld
           eq_refl eq_refl H).
Defined.

(** X18. A date rule whose operator is neither [after] nor [before], and a
    score rule whose operator is neither [gt] nor [lt], never reject: whatever
    the dates and scores, the turn of the loop passes. *)
Theorem unknown_operator_never_rejects env filter data w :
  isNullish data = false →
  (strictEqStr (readProp filter "type") "date" = true ∧
   strictEqStr (readProp filter "operator") "after" = false ∧
   strictEqStr (readProp filter "operator") "before" = false) ∨
  (strictEqStr (readProp filter "type") "score" = true ∧
   strictEqStr (readProp filter "operator") "gt" = false ∧
   strictEqStr (readProp filter "operator") "lt" = false) →
  filterRejects env filter data w = (Normal false, w).
Proof.
  intros Hdata Hrule.
  assert (Hfilter : isNullish filter = false).
  { destruct (isNullish filter) eqn:Hn; [|done].
    rewrite (readProp_nullish _ "type" Hn) in Hrule. by destruct Hrule as [[? _]|[? _]]. }
  unfold filterRejects, bind, getProp. rewrite Hfilter, Hdata. simpl.
  destruct Hrule as [(Hkind & Ha & Hb)|(Hkind & Hg & Hl)].
  - rewrite (strictEqStr_other _ "date" "keyword" Hkind) by done.
    by rewrite Hkind, Ha, Hb.
  - rewrite (strictEqStr_other _ "score" "keyword" Hkind) by done.
    rewrite (strictEqStr_other _ "score" "date" Hkind) by done.
    by rewrite Hkind, Hg, Hl.
Qed.

Lemma unknown_operator_never_rejects_witness :
  isNullish (data launchContext) = false ∧
  ((strictEqStr (readProp sinceRule "type") "date" = true ∧
    strictEqStr (readProp sinceRule "operator") "after" = false ∧
    strictEqStr (readProp sinceRule "operator") "before" = false) ∨
   (strictEqStr (readProp sinceRule "type") "score" = true ∧
    strictEqStr (readProp sinceRule "operator") "gt" = false ∧
    strictEqStr (readProp sinceRule "operator") "lt" = false)) ∧
  filterRejects sampleEnv sinceRule (data launchContext) emptyWorld
    = (Normal false, emptyWorld).
Proof.
  assert (H : (strictEqStr (readProp sinceRule "type") "date" = true ∧
               strictEqStr (readProp sinceRule "operator") "after" = false ∧
               strictEqStr (readProp sinceRule "operator") "before" = false) ∨
              (strictEqStr (readProp sinceRule "type") "score" = true ∧
               strictEqStr (readProp sinceRule "operator") "gt" = false ∧
               strictEqStr (readProp sinceRule "operator") "lt" = false)).
  { left. repeat split. }
  split; [reflexivity|]. split; [exact H|].
  exact (unknown_operator_never_rejects sampleEnv sinceRule (data launchContext) emptyWorld
           eq_refl H).
Defined.

Lemma sameText_lower a b : sameText a b = true → toLowerCase a = toLowerCase b.
Proof.
  revert b. induction a as [|x a IH]; intros [|y b]; simpl; try done.
  rewrite sameLetter_lower. intros [Hxy Hab]%andb_prop.
  apply Ascii.eqb_eq in Hxy. by rewrite Hxy, (IH b Hab).
Qed.

Lemma lowerIncludes_value text filter1 filter2 v1 v2 w :
  isNullish filter1 = false → isNullish filter2 = false →
  readProp filter1 "value" = JStr v1 → readProp filter2 "value" = JStr v2 →
  toLowerCase v1 = toLowerCase v2 →
  lowerIncludes text filter1 w = lowerIncludes text filter2 w.
Proof.
  intros Hf1 Hf2 Hv1 Hv2 Hlow. unfold lowerIncludes, bind, getProp.
  destruct text; try done. simpl. rewrite Hf1, Hf2, Hv1, Hv2. unfold ret.
  by rewrite Hlow.
Qed.

(** X19. Keyword matching ignores the case of the keyword: two keyword rules
    whose values are the same text up to case, letter by letter (a capital
    against its small letter, accented letters included), give the same
    verdict, or the same error, on every payload. *)
Theorem keyword_case_is_ignored env filter1 filter2 v1 v2 data w :
  strictEqStr (readProp filter1 "type") "keyword" = true →
  strictEqStr (readProp filter2 "type") "keyword" = true →
  readProp filter1 "value" = JStr v1 → readProp filter2 "value" = JStr v2 →
  sameText v1 v2 = true →
  filterRejects env filter1 data w = filterRejects env filter2 data w.
Proof.
  intros Hk1 Hk2 Hv1 Hv2 Hlow%sameText_lower.
  assert (Hf1 : isNullish filter1 = false).
  { destruct (isNullish filter1) eqn:Hn; [|done].
    by rewrite (readProp_nullish _ "type" Hn) in Hk1. }
  assert (Hf2 : isNullish filter2 = false).
  { destruct (isNullish filter2) eqn:Hn; [|done].
    by rewrite (readProp_nullish _ "type" Hn) in Hk2. }
  unfold filterRejects, bind, getProp. rewrite Hf1, Hf2. simpl. rewrite Hk1, Hk2.
  destruct (isNullish data); [done|]. simpl.
  rewrite (lowerIncludes_value _ filter1 filter2 v1 v2 w Hf1 Hf2 Hv1 Hv2 Hlow).
  destruct (lowerIncludes (readProp data "title") filter2 w) as [[[|]|e] w1]; try done.
  by rewrite (lowerIncludes_value _ filter1 filter2 v1 v2 w1 Hf1 Hf2 Hv1 Hv2 Hlow).
Qed.

Lemma keyword_case_is_ignored_witness :
  strictEqStr (readProp (keywordRule capitalSchool) "type") "keyword" = true ∧
  strictEqStr (readProp (keywordRule smallSchool) "type") "keyword" = true ∧
  readProp (keywordRule capitalSchool) "value" = JStr capitalSchool ∧
  readProp (keywordRule smallSchool) "value" = JStr smallSchool ∧
  sameText capitalSchool smallSchool = true ∧
  filterRejects sampleEnv (keywordRule capitalSchool) (data launchContext) emptyWorld
    = filterRejects sampleEnv (keywordRule smallSchool) (data launchContext) emptyWorld.
Proof.
  do 5 (split; [reflexivity|]).
  exact (keyword_case_is_ignored sampleEnv (keywordRule capitalSchool)
           (keywordRule smallSchool) capitalSchool smallSchool
           (data launchContext) emptyWorld eq_refl eq_refl eq_refl eq_refl eq_refl).
Defined.

Lemma filterLoop_result env filters data w :
  silent (filterLoop env filters data) ∧
  ∀ r w', filterLoop env filters data w = (Normal r, w') → r = JNull ∨ r = data.
Proof.
  split; [apply silent_filterLoop|].
  revert w. induction filters as [|f rest IH]; intros w r w' Hrun; simpl in Hrun.
  - injection Hrun as <- _. by right.
  - unfold bind in Hrun.
    destruct (filterRejects env f data w) as [[[|]|e] w1]; [| |done].
    + injection Hrun as <- _. by left.
    + by eapply IH.
Qed.

(** X20. Rules compose: filtering a payload (not null or undefined) by the
    rules [first ++ second] is filtering it by [first] and, if that neither
    rejects nor throws, by [second]. *)
Theorem filter_rules_compose env first second data w :
  isNullish data = false →
  filterLoop env (first ++ second) data w =
    match filterLoop env first data w with
    | (Normal JNull, w') => (Normal JNull, w')
    | (Normal _, w') => filterLoop env second data w'
    | (Throw e, w') => (Throw e, w')
    end.
Proof.
  intros Hdata. revert w. induction first as [|f rest IH]; intros w; simpl.
  - by destruct data.
  - unfold bind. destruct (filterRejects env f data w) as [[[|]|e] w1]; [done| |done].
    apply IH.
Qed.

Lemma filter_rules_compose_witness :
  isNullish (data weatherContext) = false ∧
  filterLoop sampleEnv ([sinceRule] ++ [launchFilter]) (data weatherContext) emptyWorld =
    match filterLoop sampleEnv [sinceRule] (data weatherContext) emptyWorld with
    | (Normal JNull, w') => (Normal JNull, w')
    | (Normal _, w') => filterLoop sampleEnv [launchFilter] (data weatherContext) w'
    | (Throw e, w') => (Throw e, w')
    end.
Proof.
  split; [reflexivity|].
  exact (filter_rules_compose sampleEnv [sinceRule] [launchFilter] (data weatherContext)
           emptyWorld eq_refl).
Defined.

(** ** Nodes that hand the payload on *)

Lemma executeNode_pass_through env node context :
  isPassThrough (type node) = true →
  executeNode env node context = ret (data context).
Proof.
  unfold isPassThrough, executeNode, executeTriggerNode. simpl existsb.
  destruct (String.eqb (type node) "trigger"); [done|].
  repeat match goal with
         | |- context [String.eqb (type node) ?s] => destruct (String.eqb (type node) s)
         end; done.
Qed.

Lemma processContexts_pass_through env node context w :
  isPassThrough (type node) = true →
  isNullish (data context) = false → isArray (data context) = false →
  processContexts env node [context] [] w =
    (Normal [mkContext (executionId context) (data context)
               (<[metadataKey node := data context]> (metadata context))],
     logCreated [mkContext (executionId context) (data context)
                   (<[metadataKey node := data context]> (metadata context))] w).
Proof.
  intros Hpass Hnull Harr. simpl. unfold bind, processContext, tryCatch, bind.
  rewrite (executeNode_pass_through _ _ _ Hpass). unfold ret, noteCreated.
  by destruct (data context).
Qed.

Lemma runNodes_pass_through env sortedNodes :
  (∀ n, In n sortedNodes → isPassThrough (type n) = true) →
  ∀ context w,
    isNullish (data context) = false → isArray (data context) = false →
    ∃ final w',
      runNodes env sortedNodes [context] w = (Normal [final], w') ∧
      data final = data context ∧ executionId final = executionId context ∧
      (∀ n, In n sortedNodes → metadata final !! metadataKey n = Some (data context)) ∧
      (∀ key, metadata context !! key = Some (data context) →
              metadata final !! key = Some (data context)) ∧
      storeOps w' = storeOps w ∧ calls w' = calls w.
Proof.
  induction sortedNodes as [|node rest IH]; intros Hpass context w Hnull Harr.
  - exists context, w. simpl. do 3 (split; [done|]). split; [by intros n []|done].
  - cbn [runNodes]. unfold bind.
    rewrite (processContexts_pass_through _ _ _ _ (Hpass node (or_introl eq_refl)) Hnull Harr).
    set (next := mkContext _ _ _).
    destruct (IH (λ n Hn, Hpass n (or_intror Hn)) next (logCreated [next] w) Hnull Harr)
      as (final & w' & Hrun & Hdata & Hid & Hmeta & Hkeep & Hstore & Hcalls).
    exists final, w'. split; [done|]. do 2 (split; [done|]).
    split; [|split; [|done]].
    + intros n [<-|Hn]; [|by apply Hmeta].
      apply Hkeep. simpl. apply lookup_insert_eq.
    + intros key Hkey. apply Hkeep. simpl.
      destruct (decide (metadataKey node = key)) as [<-|Hne];
        [apply lookup_insert_eq|by rewrite lookup_insert_ne].
Qed.

Lemma Sorted_In nodes out n :
  topologicalSort nodes = Sorted out → In n out → In n nodes.
Proof.
  intros Hrun Hn.
  apply topologicalSort_Sorted in Hrun as (st1 & st2 & _ & _ & -> & _ & Hp2).
  destruct Hp2 as (Hinv & _).
  by apply (inv_lookup _ _ Hinv), lookupNode_Some in Hn as [? _].
Qed.

(** X21. A workflow of triggers and nodes of unknown type hands the trigger
    data through: if the graph has no cycle and the trigger data is not an
    array, the run completes with one final context carrying the trigger
    data, or the empty object when that is missing or falsy, and no
    collaborator function is called. *)
Theorem pass_through_workflow env workflowId nodes triggerData w execution error :
  insertResponse env w executionsTable (initialRecord env workflowId w) = (execution, error) →
  truthy error = false → isNullish execution = false →
  acyclic nodes →
  (∀ n, In n nodes → isPassThrough (type n) = true) →
  isArray triggerData = false →
  ∃ w',
    executeWorkflow env workflowId nodes triggerData w =
      (Normal (JArr [JObj (setProp (spreadProps execution) "status" (JStr "completed"))]),
       w') ∧
    calls w' = calls w ∧
    ∃ completed_at,
      last (storeOps w') =
        Some (OpUpdate executionsTable
                (JObj [("status", JStr "completed");
                       ("completed_at", completed_at);
                       ("result",
                        JObj [("contexts", JNum 1);
                              ("final_results",
                               JArr [if truthy triggerData then triggerData
                                     else JObj []])])])
                "id" (readProp execution "id")).
Proof.
  intros Hins Herr Hrow Hacyclic Hpass Harr.
  destruct (topologicalSort nodes) as [out| |] eqn:Hsort;
    [|by destruct (topologicalSort_no_cycle nodes Hacyclic)
     |by destruct (topologicalSort_total nodes)].
  set (root := rootContext (readProp execution "id") triggerData).
  assert (Hroot : isNullish (data root) = false ∧ isArray (data root) = false).
  { unfold root, rootContext, orElse. simpl.
    destruct (truthy triggerData) eqn:Htruthy; [by destruct triggerData|done]. }
  destruct Hroot as [Hnull Harray].
  destruct (runNodes_pass_through env out (λ n Hn, Hpass n (Sorted_In _ _ _ Hsort Hn))
              root (runStart env workflowId triggerData execution w) Hnull Harray)
    as (final & w2 & Hrun & Hdata & _ & _ & _ & Hstore & Hcalls).
  eexists. split.
  - by eapply (executeWorkflow_completed _ _ nodes triggerData _ _ _ Hins out [final] w2).
  - split; [simpl; by rewrite Hcalls|]. eexists. simpl. rewrite last_snoc.
    unfold completedFields. simpl. rewrite Hdata. reflexivity.
Qed.

Lemma pass_through_workflow_witness :
  ∃ execution error,
    insertResponse sampleEnv emptyWorld executionsTable
      (initialRecord sampleEnv "wf" emptyWorld) = (execution, error) ∧
    truthy error = false ∧ isNullish execution = false ∧
    acyclic relayNodes ∧
    (∀ n, In n relayNodes → isPassThrough (type n) = true) ∧
    isArray (JNum 5) = false ∧
    ∃ w',
      executeWorkflow sampleEnv "wf" relayNodes (JNum 5) emptyWorld =
        (Normal (JArr [JObj (setProp (spreadProps execution) "status" (JStr "completed"))]),
         w') ∧
      calls w' = calls emptyWorld ∧
      ∃ completed_at,
        last (storeOps w') =
          Some (OpUpdate executionsTable
                  (JObj [("status", JStr "completed");
                         ("completed_at", completed_at);
                         ("result",
                          JObj [("contexts", JNum 1);
                                ("final_results",
                                 JArr [if truthy (JNum 5) then JNum 5 else JObj []])])])
                  "id" (readProp execution "id")).
Proof.
  assert (Hacyclic : acyclic relayNodes) by (by eapply Sorted_acyclic; vm_compute).
  assert (Hpass : ∀ n, In n relayNodes → isPassThrough (type n) = true).
  { intros n [<-|[<-|[]]]; reflexivity. }
  eexists _, _. split; [reflexivity|]. do 2 (split; [reflexivity|]).
  split; [exact Hacyclic|]. split; [exact Hpass|]. split; [reflexivity|].
  exact (pass_through_workflow sampleEnv "wf" relayNodes (JNum 5) emptyWorld _ _
           eq_refl eq_refl eq_refl Hacyclic Hpass eq_refl).
Defined.
